(** * Captureit: the metadata enrichment core of [src/App.jsx] and
      [server/metadata-proxy.js], embedded in Rocq.

    JavaScript strings are sequences of UTF-16 code units.  A string is
    modelled as a [list ascii]; an [ascii] stands for the code unit with the
    same number, so the model covers the strings whose code units are below
    256 (the Latin-1 range).  [js "..."] writes a literal. *)

From Stdlib Require Import Ascii String.
From stdpp Require Import base list gmap strings.

Abbreviation jsstring := (list ascii).

Definition js (s : string) : jsstring := list_ascii_of_string s.

(** ** Character classes of the regular expressions used by the code *)

Module Char.

Definition code (c : ascii) : nat := nat_of_ascii c.

Definition between (lo hi : nat) (c : ascii) : bool :=
  (lo <=? code c) && (code c <=? hi).

Definition is_upper (c : ascii) : bool := between 65 90 c.   (* A-Z *)
Definition is_lower (c : ascii) : bool := between 97 122 c.  (* a-z *)
Definition is_digit (c : ascii) : bool := between 48 57 c.   (* 0-9 *)

(** [\w]: [A-Za-z0-9_]. *)
Definition is_word (c : ascii) : bool :=
  is_upper c || is_lower c || is_digit c || (code c =? 95).

(** [\s] and the characters removed by [trim]: TAB, LF, VT, FF, CR, SPACE
    and NO-BREAK SPACE (the other members are above code unit 255). *)
Definition is_space (c : ascii) : bool :=
  between 9 13 c || (code c =? 32) || (code c =? 160).

(** The characters [.] does not match: LF and CR. *)
Definition is_line_terminator (c : ascii) : bool :=
  (code c =? 10) || (code c =? 13).

(** The class of line 59 of App.jsx, [[-|â€¢:\/]]: hyphen, pipe, the
    three characters U+00E2, U+20AC and U+00A2 the file holds there, colon
    and slash.  U+20AC is outside the modelled range. *)
Definition is_separator (c : ascii) : bool :=
  (code c =? 45) || (code c =? 124) || (code c =? 226) || (code c =? 162)
  || (code c =? 58) || (code c =? 47).

(** [toLowerCase] on one code unit: A-Z and the Latin-1 capitals
    U+00C0-U+00D6, U+00D8-U+00DE move up by 32. *)
Definition toLowerCase (c : ascii) : ascii :=
  if is_upper c || between 192 214 c || between 216 222 c
  then ascii_of_nat (code c + 32) else c.

(** [toUpperCase] as line 72 uses it: on one character matched by [\w]. *)
Definition toUpperCase (c : ascii) : ascii :=
  if is_lower c then ascii_of_nat (code c - 32) else c.

Definition eqb (a b : ascii) : bool := Ascii.eqb a b.

End Char.

(** ** String primitives *)

Definition toLowerCase (s : jsstring) : jsstring := map Char.toLowerCase s.

(** [s.startsWith(p)]; on success the rest of [s] after [p]. *)
Fixpoint strip_prefix (p s : jsstring) : option jsstring :=
  match p, s with
  | [], _ => Some s
  | a :: p', b :: s' => if Char.eqb a b then strip_prefix p' s' else None
  | _ :: _, [] => None
  end.

Definition startsWith (s p : jsstring) : bool :=
  match strip_prefix p s with Some _ => true | None => false end.

Definition endsWith (s p : jsstring) : bool := startsWith (rev s) (rev p).

(** [\b] between two neighbouring characters ([None]: no character there). *)
Definition word_at (c : option ascii) : bool :=
  match c with Some c => Char.is_word c | None => false end.

Definition boundary (before after : option ascii) : bool :=
  xorb (word_at before) (word_at after).

(** *** [s.replace(re, '')] with the [g] flag

    The matcher [m] is asked at every position of the subject, from left to
    right, with the character that precedes the position and the rest of the
    subject; it answers the length of the match that starts there.  A match
    is dropped and the scan resumes behind it; an empty match drops
    nothing.  [skip] counts the characters of the current match still to be
    dropped. *)
Fixpoint remove_matches (m : option ascii -> jsstring -> option nat)
    (prev : option ascii) (skip : nat) (s : jsstring) : jsstring :=
  match s with
  | [] => []
  | c :: s' =>
      match skip with
      | S k => remove_matches m (Some c) k s'
      | O =>
          match m prev s with
          | Some (S k) => remove_matches m (Some c) k s'
          | _ => c :: remove_matches m (Some c) 0 s'
          end
      end
  end.

Definition replace_all_with_empty (m : option ascii -> jsstring -> option nat)
    (s : jsstring) : jsstring :=
  remove_matches m None 0 s.

(** The regular expressions the model builds itself: a sequence of literal
    characters and [.] wildcards. *)
Inductive atom : Type :=
  | Lit (c : ascii)
  | AnyChar.

Definition atom_matches (a : atom) (c : ascii) : bool :=
  match a with
  | Lit x => Char.eqb x c
  | AnyChar => negb (Char.is_line_terminator c)
  end.

Fixpoint atoms_match (p : list atom) (s : jsstring) : option jsstring :=
  match p, s with
  | [], _ => Some s
  | a :: p', c :: s' => if atom_matches a c then atoms_match p' s' else None
  | _ :: _, [] => None
  end.

(** [new RegExp(p, 'g')] for a sequence of atoms. *)
Definition atoms_matcher (p : list atom) : option ascii -> jsstring -> option nat :=
  fun _ s => match atoms_match p s with Some _ => Some (length p) | None => None end.

Definition last_char (w : jsstring) : option ascii := last w.

(** [new RegExp('\\b' + w + '\\b', 'g')] for a word [w] without regular
    expression syntax. *)
Definition word_matcher (w : jsstring) : option ascii -> jsstring -> option nat :=
  fun prev s =>
    match strip_prefix w s with
    | Some rest =>
        if boundary prev (head s) && boundary (last_char (w)) (head rest)
        then Some (length w) else None
    | None => None
    end.

(** The syntax characters of a pattern: [^ $ \ . * + ? ( ) [ ] { } |]. *)
Definition is_syntax_char (c : ascii) : bool :=
  existsb (Char.eqb c) (js "^$\.*+?()[]{}|").

(** The pattern source [site] read as atoms when it has no syntax character
    but the dot. *)
Fixpoint simple_pattern (src : jsstring) : option (list atom) :=
  match src with
  | [] => Some []
  | c :: r =>
      if Char.eqb c "."%char then option_map (cons AnyChar) (simple_pattern r)
      else if is_syntax_char c then None
      else option_map (cons (Lit c)) (simple_pattern r)
  end.

(** [title.replace(/\|.*$/, '')]: the match starts at the first pipe that
    has no line terminator behind it and runs to the end. *)
Fixpoint strip_pipe_suffix (s : jsstring) : jsstring :=
  match s with
  | [] => []
  | c :: s' =>
      if Char.eqb c "|"%char && forallb (fun x => negb (Char.is_line_terminator x)) s'
      then [] else c :: strip_pipe_suffix s'
  end.

(** [domain.replace(/^www\./, '')]. *)
Definition strip_www (d : jsstring) : jsstring :=
  match strip_prefix (js "www.") d with Some r => r | None => d end.

(** [.replace(/\.(com|in|co|org|net)$/, '')]. *)
Definition tlds : list jsstring :=
  [js ".com"; js ".in"; js ".co"; js ".org"; js ".net"].

Definition strip_tld (d : jsstring) : jsstring :=
  match find (endsWith d) tlds with
  | Some t => take (length d - length t) d
  | None => d
  end.

(** [title.split(/\s+/).filter(Boolean)]: the maximal runs of characters
    that are not white space. *)
Definition starts_token (s : jsstring) : bool :=
  match s with c :: _ => negb (Char.is_space c) | [] => false end.

Fixpoint tokens (s : jsstring) : list jsstring :=
  match s with
  | [] => []
  | c :: s' =>
      if Char.is_space c then tokens s'
      else if starts_token s' then
        match tokens s' with
        | t :: ts => (c :: t) :: ts
        | [] => [[c]]
        end
      else [c] :: tokens s'
  end.

(** The filter of lines 62-65: a word passes when the set [seen] does not
    have it yet, and is then added to the set. *)
Fixpoint filter_unseen (seen : gset jsstring) (ws : list jsstring) : list jsstring :=
  match ws with
  | [] => []
  | w :: r =>
      if decide (w ∈ seen) then filter_unseen seen r
      else w :: filter_unseen ({[w]} ∪ seen) r
  end.

(** [ws.join(' ')]. *)
Fixpoint join_space (ws : list jsstring) : jsstring :=
  match ws with
  | [] => []
  | [w] => w
  | w :: r => w ++ " "%char :: join_space r
  end.

(** [title.replace(/\s+/g, ' ')]. *)
Fixpoint collapse_spaces (s : jsstring) : jsstring :=
  match s with
  | [] => []
  | c :: s' =>
      if Char.is_space c then
        if starts_token s' || match s' with [] => true | _ => false end
        then " "%char :: collapse_spaces s'
        else collapse_spaces s'
      else c :: collapse_spaces s'
  end.

(** [title.trim()]. *)
Fixpoint trim_start (s : jsstring) : jsstring :=
  match s with
  | c :: s' => if Char.is_space c then trim_start s' else s
  | [] => []
  end.

Definition trim (s : jsstring) : jsstring := rev (trim_start (rev (trim_start s))).

(** [title.replace(/\b\w/g, c => c.toUpperCase())]: a character is replaced
    when it is a word character and the one before it is not. *)
Fixpoint capitalize_from (prev : option ascii) (s : jsstring) : jsstring :=
  match s with
  | [] => []
  | c :: s' =>
      (if Char.is_word c && negb (word_at prev) then Char.toUpperCase c else c)
        :: capitalize_from (Some c) s'
  end.

Definition capitalize (s : jsstring) : jsstring := capitalize_from None s.

(** ** normalizeTitle (App.jsx, lines 39-78) *)

Definition boilerplate : list jsstring :=
  [js "price"; js "images"; js "mileage"; js "specs"; js "features";
   js "overview"; js "review"; js "reviews"; js "news"; js "blogs"; js "blog";
   js "updated"; js "latest"; js "model"; js "india"; js "official";
   js "on-road"; js "on road"].

Definition remove_boilerplate (title : jsstring) : jsstring :=
  fold_left (fun t w => replace_all_with_empty (word_matcher w) t) boilerplate title.

Definition replace_separators (title : jsstring) : jsstring :=
  map (fun c => if Char.is_separator c then " "%char else c) title.

Section NormalizeTitle.

(** [RegExp_remove src t] is [t.replace(new RegExp(src, 'g'), '')] inside
    the [try] of line 49, so [t] itself when the constructor throws.  The
    model asks it only for a [src] that has syntax characters other than
    the dot; the other patterns are matched by [atoms_matcher]. *)
Variable RegExp_remove : jsstring -> jsstring -> jsstring.

Definition site_of (domain : jsstring) : jsstring := strip_tld (strip_www domain).

Definition remove_site (domain title : jsstring) : jsstring :=
  match domain with
  | [] => title
  | _ =>
      let site := site_of domain in
      match simple_pattern site with
      | Some p => replace_all_with_empty (atoms_matcher p) title
      | None => RegExp_remove site title
      end
  end.

(** The title before the capitalisation step (lines 41-68). *)
Definition clean_title (raw domain : jsstring) : jsstring :=
  let title := toLowerCase raw in
  let title := strip_pipe_suffix title in
  let title := remove_site domain title in
  let title := remove_boilerplate title in
  let title := replace_separators title in
  let title := join_space (filter_unseen ∅ (tokens title)) in
  trim (collapse_spaces title).

Definition normalizeTitle (raw : option jsstring) (domain : jsstring)
    : option jsstring :=
  match raw with
  | None | Some [] => None
  | Some raw =>
      match clean_title raw domain with
      | [] => None
      | title =>
          let title := capitalize title in
          if length title <? 3 then None else Some title
      end
  end.

End NormalizeTitle.

(** The engine that stands for a constructor that always throws. *)
Definition RegExp_skip : jsstring -> jsstring -> jsstring := fun _ t => t.

(** ** Values and truthiness *)

(** A string is truthy when it is not empty; [null] and [undefined] are
    [None]. *)
Definition truthy (s : jsstring) : bool :=
  match s with [] => false | _ => true end.

Definition truthy_opt (o : option jsstring) : bool :=
  match o with Some s => truthy s | None => false end.

(** [a || b] on values that are strings, [null] or [undefined]. *)
Definition js_or (a b : option jsstring) : option jsstring :=
  if truthy_opt a then a else b.

Definition jsstring_eqb (a b : jsstring) : bool := bool_decide (a = b).

(** [re.test(s)] for a literal pattern with the [i] flag. *)
Fixpoint contains_ci (pat s : jsstring) : bool :=
  match s with
  | [] => startsWith [] pat
  | _ :: s' => startsWith (toLowerCase s) pat || contains_ci pat s'
  end.

(** [s.replace(p, '')] for a string pattern: its first occurrence goes. *)
Fixpoint remove_first (pat s : jsstring) : jsstring :=
  match strip_prefix pat s with
  | Some rest => rest
  | None => match s with [] => [] | c :: s' => c :: remove_first pat s' end
  end.

(** [s.split(sep)] for a one-character separator. *)
Fixpoint split_on (sep : ascii) (s : jsstring) : list jsstring :=
  match s with
  | [] => [[]]
  | c :: s' =>
      if Char.eqb c sep then [] :: split_on sep s'
      else match split_on sep s' with
           | h :: t => (c :: h) :: t
           | [] => [[c]]
           end
  end.

(** ** The title candidates of the three extractors *)

(** What the selectors (client) or the regular expressions (server) find in
    a page: [None] when the element or attribute is missing. *)
Module Page.
Record t : Type := mk {
  og_title : option jsstring;          (* meta[property="og:title"] content *)
  twitter_title : option jsstring;     (* meta[name="twitter:title"] content *)
  title_text : option jsstring;        (* <title> text *)
  meta_description : option jsstring;  (* meta[name="description"] content *)
  og_description : option jsstring     (* meta[property="og:description"] content *)
}.
End Page.

(** fetchPageMetadata, direct fetch (App.jsx, lines 170-172 and 195). *)
Definition fetchPageMetadata_direct_rawTitle (p : Page.t) : option jsstring :=
  let ogTitle := Page.og_title p in
  let metaTitle := Page.title_text p in
  let description := js_or (Page.meta_description p) (Page.og_description p) in
  js_or (js_or ogTitle metaTitle) description.

(** fetchPageMetadata, read-proxy fallback (App.jsx, lines 220-221 and 239). *)
Definition fetchPageMetadata_fallback_rawTitle (p : Page.t) : option jsstring :=
  let ogTitle := Page.og_title p in
  let metaTitle := Page.title_text p in
  js_or ogTitle metaTitle.

(** The proxy server (metadata-proxy.js, lines 20-22 and 65). *)
Definition proxy_title (p : Page.t) : option jsstring :=
  let ogTitleMatch := Page.og_title p in
  let twitterTitleMatch := Page.twitter_title p in
  let titleMatch := Page.title_text p in
  js_or (js_or (js_or ogTitleMatch twitterTitleMatch) titleMatch) None.

(** The order the specification gives (section 4.4): og:title, twitter:title,
    <title> text, meta description. *)
Definition spec_title_priority (p : Page.t) : option jsstring :=
  js_or (js_or (js_or (Page.og_title p) (Page.twitter_title p)) (Page.title_text p))
        (Page.meta_description p).

(** ** loadImageWithTimeout (App.jsx, lines 120-134) *)

Module ImageLoad.

(** What the event loop delivers to the three callbacks. *)
Inductive event : Type :=
  | timer_fires
  | img_onload (naturalWidth naturalHeight : Z)
  | img_onerror.

(** [settled], whether the timer is still set, and the calls of [resolve]
    so far, oldest first. *)
Record state : Type := mk {
  settled : bool;
  timer_set : bool;
  resolve_calls : list bool
}.

(** The executor has run: the timer is set and the handlers are attached. *)
Definition started : state :=
  {| settled := false; timer_set := true; resolve_calls := [] |}.

Definition resolve (b : bool) (s : state) : state :=
  {| settled := settled s; timer_set := timer_set s;
     resolve_calls := resolve_calls s ++ [b] |}.

Definition set_settled (s : state) : state :=
  {| settled := true; timer_set := timer_set s; resolve_calls := resolve_calls s |}.

Definition clearTimeout (s : state) : state :=
  {| settled := settled s; timer_set := false; resolve_calls := resolve_calls s |}.

Definition handle (minWidth minHeight : Z) (s : state) (e : event) : state :=
  match e with
  | timer_fires =>
      if timer_set s then
        let s := clearTimeout s in   (* a timer fires once *)
        if negb (settled s) then resolve false (set_settled s) else s
      else s
  | img_onload naturalWidth naturalHeight =>
      if negb (settled s) then
        let w := naturalWidth in
        let h := naturalHeight in
        let ok := (minWidth <=? w)%Z && (minHeight <=? h)%Z in
        resolve ok (clearTimeout (set_settled s))
      else s
  | img_onerror =>
      if negb (settled s) then resolve false (clearTimeout (set_settled s)) else s
  end.

Definition run (minWidth minHeight : Z) (evs : list event) : state :=
  fold_left (handle minWidth minHeight) evs started.

(** The value of the promise: that of the first call of [resolve]. *)
Definition promise_value (s : state) : option bool := head (resolve_calls s).

(** What the image does: it loads at some time with its natural
    dimensions, fails at some time, or does neither. *)
Inductive behaviour : Type :=
  | loads (at_ms : Z) (naturalWidth naturalHeight : Z)
  | fails (at_ms : Z)
  | silent.

(** The image event, due at [t], is delivered before the timer set to
    [timeout]; [image_first_on_tie] decides when both are due at the same
    time. *)
Definition within_deadline (timeout : Z) (image_first_on_tie : bool) (t : Z) : bool :=
  (t <? timeout)%Z || ((t =? timeout)%Z && image_first_on_tie).

(** The order in which the event loop delivers the image event and the
    timer. *)
Definition schedule (timeout : Z) (image_first_on_tie : bool) (b : behaviour)
    : list event :=
  match b with
  | loads t w h =>
      if within_deadline timeout image_first_on_tie t
      then [img_onload w h; timer_fires]
      else [timer_fires; img_onload w h]
  | fails t =>
      if within_deadline timeout image_first_on_tie t
      then [img_onerror; timer_fires]
      else [timer_fires; img_onerror]
  | silent => [timer_fires]
  end.

Definition loadImageWithTimeout (timeout minWidth minHeight : Z)
    (image_first_on_tie : bool) (b : behaviour) : option bool :=
  promise_value (run minWidth minHeight (schedule timeout image_first_on_tie b)).

(** What the handler of the first event delivered resolves the promise
    with. *)
Definition first_event_value (minWidth minHeight : Z) (ev : event) : bool :=
  match ev with
  | img_onload w h => (minWidth <=? w)%Z && (minHeight <=? h)%Z
  | timer_fires | img_onerror => false
  end.

(** [settled] is set exactly when [resolve] has been called, and then
    once. *)
Definition consistent (s : state) : Prop :=
  if settled s then length (resolve_calls s) = 1 else resolve_calls s = [].

End ImageLoad.

(** ** Items, the cache and the store *)

Inductive MetaStatus : Type := status_pending | status_done | status_failed.

Inductive ItemType : Type := type_url | type_image.

Global Instance MetaStatus_eq_dec : EqDecision MetaStatus.
Proof. solve_decision. Defined.

Global Instance ItemType_eq_dec : EqDecision ItemType.
Proof. solve_decision. Defined.

(** A capture item with the fields the enrichment code reads or writes
    (notes, price, status, isArchived and visitCount belong to the views).
    A flag the object does not have yet reads [undefined], here [false]. *)
Module Item.
Record t : Type := mk {
  id : jsstring;
  bucketId : jsstring;
  url : jsstring;
  title : jsstring;
  domain : jsstring;
  image : option jsstring;
  metaStatus : MetaStatus;
  metaAttempts : nat;
  site : jsstring;
  createdAt : Z;
  userEditedTitle : bool;
  userEditedImage : bool;
  enrichFlash : bool
}.
End Item.

(** The object handed to [updateItem]: the keys it has. *)
Module Update.
Record t : Type := mk {
  title : option jsstring;
  image : option jsstring;
  site : option jsstring;
  metaStatus : option MetaStatus;
  metaAttempts : option nat;
  enrichFlash : option bool;
  userEditedTitle : option bool
}.
End Update.

(** [{ ...item, ...updates }]. *)
Definition merge (item : Item.t) (updates : Update.t) : Item.t :=
  {| Item.id := Item.id item;
     Item.bucketId := Item.bucketId item;
     Item.url := Item.url item;
     Item.title := default (Item.title item) (Update.title updates);
     Item.domain := Item.domain item;
     Item.image :=
       match Update.image updates with Some i => Some i | None => Item.image item end;
     Item.metaStatus := default (Item.metaStatus item) (Update.metaStatus updates);
     Item.metaAttempts := default (Item.metaAttempts item) (Update.metaAttempts updates);
     Item.site := default (Item.site item) (Update.site updates);
     Item.createdAt := Item.createdAt item;
     Item.userEditedTitle :=
       default (Item.userEditedTitle item) (Update.userEditedTitle updates);
     Item.userEditedImage := Item.userEditedImage item;
     Item.enrichFlash := default (Item.enrichFlash item) (Update.enrichFlash updates) |}.

Module CacheEntry.
Record t : Type := mk {
  title : option jsstring;
  image : option jsstring;
  site : jsstring
}.
End CacheEntry.

(** What a timer set by [setTimeout] will do. *)
Inductive Task : Type :=
  | retry_enrich (id url : jsstring)     (* () => enrichUrlMetadata(id, url) *)
  | clear_flash (id : jsstring).         (* () => updateItem(id, { enrichFlash: false }) *)

(** The state the functions share: [data.items], the parsed
    [meta_cache_v1] entry of localStorage, the timers set and not yet
    fired (delay in ms, oldest first), and [pendingUrlsRef.current]. *)
Module Store.
Record t : Type := mk {
  items : list Item.t;
  cache : gmap jsstring CacheEntry.t;
  timers : list (nat * Task);
  pendingUrls : gset jsstring
}.

Definition with_items (f : list Item.t -> list Item.t) (s : t) : t :=
  mk (f (items s)) (cache s) (timers s) (pendingUrls s).
Definition with_cache (c : gmap jsstring CacheEntry.t) (s : t) : t :=
  mk (items s) c (timers s) (pendingUrls s).
Definition setTimeout (task : Task) (delay : nat) (s : t) : t :=
  mk (items s) (cache s) (timers s ++ [(delay, task)]) (pendingUrls s).
Definition with_pending (f : gset jsstring -> gset jsstring) (s : t) : t :=
  mk (items s) (cache s) (timers s) (f (pendingUrls s)).
End Store.

(** [data.items.find(i => i.id === id)]. *)
Definition find_item (id : jsstring) (items : list Item.t) : option Item.t :=
  find (fun i => jsstring_eqb (Item.id i) id) items.

(** updateItem (App.jsx, lines 685-690). *)
Definition updateItem (id : jsstring) (updates : Update.t) (s : Store.t) : Store.t :=
  Store.with_items
    (map (fun item => if jsstring_eqb (Item.id item) id then merge item updates else item))
    s.

(** ** The platform: [new URL(url)] *)

Module URL.
Record t : Type := mk { hostname : jsstring; pathname : jsstring }.
End URL.

(** What a block does: it returns a value, or it throws. *)
Inductive Completion (A : Type) : Type :=
  | returns (a : A)
  | throws.
Arguments returns {A} a.
Arguments throws {A}.

Section Enrichment.

(** The regular expression engine, see [remove_site]. *)
Variable RegExp_remove : jsstring -> jsstring -> jsstring.

(** [new URL(url)]; [None] when the constructor throws. *)
Variable new_URL : jsstring -> option URL.t.

(** getDomain (App.jsx, lines 9-16). *)
Definition getDomain (url : jsstring) : jsstring :=
  match new_URL url with
  | Some u => remove_first (js "www.") (URL.hostname u)
  | None => if truthy url then js "link" else js "image"
  end.

(** inferTitleFromUrl (App.jsx, lines 80-101). *)
Definition ignore : list jsstring :=
  [js "blogs"; js "blog"; js "news"; js "reviews"; js "colors"; js "specs";
   js "gallery"; js "images"; js "price"; js "posts"; js "category";
   js "categories"; js "tag"; js "tags"].

Definition dashes_to_spaces (s : jsstring) : jsstring :=
  map (fun c => if Char.eqb c "-"%char || Char.eqb c "_"%char then " "%char else c) s.

Definition inferTitleFromUrl (url : jsstring) : option jsstring :=
  match new_URL url with
  | None => None
  | Some u =>
      let parts :=
        filter (fun p => ¬ (toLowerCase p ∈ ignore))
               (filter (fun p => truthy p = true) (split_on "/"%char (URL.pathname u))) in
      match rev parts with
      | model :: brand :: _ =>
          let combined := dashes_to_spaces (brand ++ " "%char :: model) in
          normalizeTitle RegExp_remove (Some combined) (URL.hostname u)
      | [candidate] =>
          normalizeTitle RegExp_remove (Some (dashes_to_spaces candidate)) (URL.hostname u)
      | [] => None
      end
  end.

(** *** enrichUrlMetadata (App.jsx, lines 349-416)

    The function is declared at module level.  Its body names [data] and
    [updateItem], which are declared inside App (lines 447 and 685): no
    declaration of either name is in scope where the function is
    declared. *)

(** [/s2\/favicons|favicon/i.test(src)]. *)
Definition isFavicon (src : option jsstring) : bool :=
  match src with
  | Some s => truthy s && (contains_ci (js "s2/favicons") s || contains_ci (js "favicon") s)
  | None => false
  end.

(** Lines 361-363 and 386-388; [currentItem] is [None] when [find]
    returns [undefined]. *)
Definition shouldSetTitle (currentItem : option Item.t) (inferred : option jsstring) : bool :=
  match currentItem with
  | None => true
  | Some cur =>
      negb (Item.userEditedTitle cur)
      && (negb (truthy (Item.title cur))
          || jsstring_eqb (Item.title cur) (js "Untitled link")
          || bool_decide (Some (Item.title cur) = inferred)
          || (truthy (Item.title cur) && (length (Item.title cur) <? 3)))
  end.

(** Lines 365-367 and 391-393, as a truth value. *)
Definition shouldSetImage (currentItem : option Item.t) (new_image : option jsstring) : bool :=
  match currentItem with
  | None => truthy_opt new_image
  | Some cur =>
      negb (Item.userEditedImage cur)
      && ((negb (truthy_opt (Item.image cur)) && truthy_opt new_image)
          || (truthy_opt (Item.image cur) && isFavicon (Item.image cur)
              && truthy_opt new_image))
  end.

(** Lines 361-370: the update object of the cache branch, as a function of
    the item [currentItem] that the lookup of line 359 gives, of the title
    [inferred] of line 360 and of the cache entry. *)
Definition cached_updateObj (currentItem : option Item.t) (inferred : option jsstring)
    (entry : CacheEntry.t) : Update.t :=
  let set_title := shouldSetTitle currentItem inferred in
  let set_image := shouldSetImage currentItem (CacheEntry.image entry) in
  {| Update.title :=
       if set_title && truthy_opt (CacheEntry.title entry)
       then CacheEntry.title entry else None;
     Update.image := if set_image then CacheEntry.image entry else None;
     Update.site := Some (CacheEntry.site entry);
     Update.metaStatus := Some status_done;
     Update.metaAttempts := None;
     Update.enrichFlash := None;
     Update.userEditedTitle := None |}.

(** Lines 386-399: the update object of the branch after a fetch, as a
    function of the item that the lookup of line 384 gives, of the title
    [inferred] of line 385 and of the payload. *)
Definition fresh_updateObj (currentItem : option Item.t) (inferred : option jsstring)
    (payload : CacheEntry.t) : Update.t :=
  let set_title := shouldSetTitle currentItem inferred in
  let set_image := shouldSetImage currentItem (CacheEntry.image payload) in
  {| Update.title :=
       if set_title && truthy_opt (CacheEntry.title payload)
       then CacheEntry.title payload else None;
     Update.image := if set_image then CacheEntry.image payload else None;
     Update.site := Some (CacheEntry.site payload);
     Update.metaStatus := Some status_done;
     Update.metaAttempts := None;
     Update.enrichFlash := Some true;
     Update.userEditedTitle := None |}.

(** How a call ends: its promise is fulfilled, or it is rejected because
    the [catch] block itself threw.  Both carry the store the call
    leaves. *)
Inductive Outcome : Type :=
  | fulfilled (s : Store.t)
  | rejected (s : Store.t).

Definition store_of (o : Outcome) : Store.t :=
  match o with fulfilled s | rejected s => s end.

(** A call either ends without suspending, or is suspended at
    [await fetchPageMetadata(url)]; the continuation takes what
    fetchPageMetadata resolved to ([None] for [null]) and the store at the
    time the call resumes. *)
Inductive Run : Type :=
  | ended (o : Outcome)
  | awaits_fetchPageMetadata (url : jsstring)
      (resume : option (option jsstring * option jsstring) -> Store.t -> Outcome).

(** The [try] block, lines 350-410.  Line 352 parses the cache read from
    localStorage.  Line 355 evaluates [data.items]: the name [data] is not
    bound, and the reference throws a ReferenceError.  Lines 356-410 are
    not reached: no item is looked up, fetchPageMetadata is not called, the
    cache is not written, updateItem is not called and no timer is set. *)
Definition enrich_try (id url : jsstring) (s : Store.t) : Completion Outcome :=
  let cache := Store.cache s in
  throws.

(** Lines 411-415.  [attempts] is declared by [const] inside the [try]
    block, so the name is not bound in the [catch] block: evaluating
    [attempts + 1] there throws a ReferenceError before anything is
    updated, and the call is rejected. *)
Definition catch_block (s : Store.t) : Outcome := rejected s.

Definition enrichUrlMetadata (id url : jsstring) (s : Store.t) : Run :=
  match enrich_try id url s with
  | returns o => ended o
  | throws => ended (catch_block s)
  end.

(** *** addItem (App.jsx, lines 622-683)

    [addItem] is a closure of one render of the component: the [data] it
    reads is the state of that render, while [setData(prev => ...)] is
    applied to the state at the time of the update.  [data] is therefore
    an argument of its own, next to the store the call updates.  [now] is
    [Date.now()] and [newId] what [generateId()] returns. *)

Inductive AddResult : Type :=
  | existing (id : jsstring)
  | created (id : jsstring) (s : Store.t) (enrichment : option Run).

Definition same_url_and_bucket (content targetBucketId : jsstring) (i : Item.t) : bool :=
  jsstring_eqb (Item.url i) content && jsstring_eqb (Item.bucketId i) targetBucketId.

Definition has_image_extension (content : jsstring) : bool :=
  existsb (fun ext => endsWith (toLowerCase content) ext)
          [js ".jpeg"; js ".jpg"; js ".gif"; js ".png"; js ".webp"].

(** [.finally(() => pendingUrlsRef.current.delete(content))]. *)
Definition finally_delete_pending (content : jsstring) (r : Run) : Run :=
  let del := Store.with_pending (fun p => p ∖ {[content]}) in
  let on_outcome o :=
    match o with fulfilled s => fulfilled (del s) | rejected s => rejected (del s) end in
  match r with
  | ended o => ended (on_outcome o)
  | awaits_fetchPageMetadata u k => awaits_fetchPageMetadata u (fun x s => on_outcome (k x s))
  end.

Definition newItem (content targetBucketId : jsstring) (type : ItemType)
    (initialTitle initialImage : option jsstring) (now : Z) (newId : jsstring) : Item.t :=
  let isUrl := bool_decide (type = type_url) || startsWith content (js "http") in
  let site := if isUrl then getDomain content else [] in
  let inferredTitle :=
    if isUrl then js_or initialTitle (inferTitleFromUrl content) else None in
  let normalizedInferred :=
    if isUrl then normalizeTitle RegExp_remove (js_or inferredTitle (Some [])) site
    else None in
  let initialTitleToUse :=
    if isUrl then default (js "Untitled link") (js_or normalizedInferred None)
    else js "Pasted Image" in
  let initialMetaDone := isUrl && (truthy_opt initialTitle || truthy_opt initialImage) in
  {| Item.id := newId;
     Item.bucketId := targetBucketId;
     Item.url := if isUrl then content else [];
     Item.title := initialTitleToUse;
     Item.domain := site;
     Item.image :=
       match type with
       | type_image => Some content
       | type_url =>
           js_or initialImage
                 (if has_image_extension content then Some content else None)
       end;
     Item.metaStatus :=
       if initialMetaDone then status_done
       else if isUrl then status_pending else status_done;
     Item.metaAttempts := 0;
     Item.site := site;
     Item.createdAt := now;
     Item.userEditedTitle := false;
     Item.userEditedImage := false;
     Item.enrichFlash := false |}.

Definition addItem (data : list Item.t) (content targetBucketId : jsstring)
    (type : ItemType) (initialTitle initialImage : option jsstring)
    (now : Z) (newId : jsstring) (s : Store.t) : AddResult :=
  let isUrl := bool_decide (type = type_url) || startsWith content (js "http") in
  let create (s : Store.t) : AddResult :=
    let item := newItem content targetBucketId type initialTitle initialImage now newId in
    let s := Store.with_items (cons item) s in
    created newId s
      (if isUrl
       then Some (finally_delete_pending content (enrichUrlMetadata newId content s))
       else None) in
  if isUrl then
    let already :=
      if decide (content ∈ Store.pendingUrls s)
      then find (same_url_and_bucket content targetBucketId) data
      else None in
    match already with
    | Some i => existing (Item.id i)
    | None =>
        let recent :=
          match find (same_url_and_bucket content targetBucketId) data with
          | Some e =>
              if (now - Item.createdAt e <? 10000)%Z
                 || bool_decide (Item.metaStatus e = status_pending)
              then Some e else None
          | None => None
          end in
        match recent with
        | Some e => existing (Item.id e)
        | None => create (Store.with_pending (fun p => {[content]} ∪ p) s)
        end
    end
  else create s.

End Enrichment.

(** ** What the claims ask of a normalised title *)






(** The regular expression engine only removes: what it returns is made of
    characters of the subject. *)
Definition only_removes (e : jsstring -> jsstring -> jsstring) : Prop :=
  forall src t c, In c (e src t) -> In c t.

(** ** Notions used by the proofs *)

(** A token: not empty, and without white space. *)
Definition wf_token (t : jsstring) : Prop :=
  t <> [] /\ Forall (fun c => Char.is_space c = false) t.

(** A character [toLowerCase] leaves as it is. *)
Definition lower_fixed (c : ascii) : Prop := Char.toLowerCase c = c.

(** The tokens that [clean_title] joins. *)
Definition clean_tokens (e : jsstring -> jsstring -> jsstring) (raw domain : jsstring)
    : list jsstring :=
  filter_unseen ∅
    (tokens (replace_separators
               (remove_boilerplate (remove_site e domain (strip_pipe_suffix (toLowerCase raw)))))).

(** ** Sample data *)

Definition no_URL : jsstring -> option URL.t := fun _ => None.

(** [new URL] on two addresses of example.com. *)
Definition sample_URL (url : jsstring) : option URL.t :=
  if bool_decide (url = js "https://example.com/cars/honda/city")
  then Some (URL.mk (js "example.com") (js "/cars/honda/city"))
  else if bool_decide (url = js "https://example.com/")
  then Some (URL.mk (js "example.com") (js "/"))
  else None.

Definition empty_store : Store.t :=
  {| Store.items := []; Store.cache := ∅; Store.timers := []; Store.pendingUrls := ∅ |}.


Definition sample_entry : CacheEntry.t :=
  {| CacheEntry.title := Some (js "Honda City");
     CacheEntry.image := Some (js "https://example.com/city.png");
     CacheEntry.site := js "example.com" |}.


Definition fresh_item : Item.t :=
  {| Item.id := js "k3x9q";
     Item.bucketId := js "b1";
     Item.url := js "https://example.com/cars/honda/city";
     Item.title := js "Honda City";
     Item.domain := js "example.com";
     Item.image := None;
     Item.metaStatus := status_pending;
     Item.metaAttempts := 0;
     Item.site := js "example.com";
     Item.createdAt := 1000;
     Item.userEditedTitle := false;
     Item.userEditedImage := false;
     Item.enrichFlash := false |}.

Definition fresh_store : Store.t :=
  {| Store.items := [fresh_item]; Store.cache := ∅; Store.timers := [];
     Store.pendingUrls := {[ js "https://example.com/cars/honda/city" ]} |}.

(** The store of [fresh_store] with a cache entry for the URL of its
    item. *)
Definition cached_store : Store.t :=
  {| Store.items := [fresh_item];
     Store.cache := {[ js "https://example.com/cars/honda/city" := sample_entry ]};
     Store.timers := [];
     Store.pendingUrls := ∅ |}.

Definition other_bucket_item : Item.t :=
  {| Item.id := js "k3x9q";
     Item.bucketId := js "b2";
     Item.url := js "https://example.com/a";
     Item.title := js "A";
     Item.domain := js "example.com";
     Item.image := None;
     Item.metaStatus := status_pending;
     Item.metaAttempts := 0;
     Item.site := js "example.com";
     Item.createdAt := 1000;
     Item.userEditedTitle := false;
     Item.userEditedImage := false;
     Item.enrichFlash := false |}.

Definition other_bucket_store : Store.t :=
  {| Store.items := [other_bucket_item]; Store.cache := ∅; Store.timers := [];
     Store.pendingUrls := {[ js "https://example.com/a" ]} |}.

Definition twitter_only_page : Page.t :=
  {| Page.og_title := None;
     Page.twitter_title := Some (js "Card title");
     Page.title_text := Some (js "Page title");
     Page.meta_description := Some (js "About the page");
     Page.og_description := None |}.

Definition description_only_page : Page.t :=
  {| Page.og_title := None;
     Page.twitter_title := None;
     Page.title_text := None;
     Page.meta_description := Some (js "About the page");
     Page.og_description := None |}.



(** ** More of App.jsx: getFavicon and reorderItems *)

(** getFavicon (App.jsx, lines 18-26). *)
Definition getFavicon (new_URL : jsstring -> option URL.t) (url : jsstring)
    : option jsstring :=
  if truthy url then
    match new_URL url with
    | Some u =>
        Some (js "https://www.google.com/s2/favicons?domain=" ++ URL.hostname u
              ++ js "&sz=64")
    | None => None
    end
  else None.

(** [l.findIndex(p)]: -1 when no element passes. *)
Definition findIndex {A} (P : A -> Prop) `{forall x, Decision (P x)} (l : list A) : Z :=
  match list_find P l with
  | Some (i, _) => Z.of_nat i
  | None => (-1)%Z
  end.

(** The index [splice] starts at: a negative [start] counts from the end,
    and the result is kept within the array. *)
Definition actual_start (start : Z) (len : nat) : nat :=
  if (start <? 0)%Z then Z.to_nat (Z.max (Z.of_nat len + start) 0)
  else Z.to_nat (Z.min start (Z.of_nat len)).

(** [l.splice(start, 1)]: the element removed, if any, and the array
    left. *)
Definition splice_delete1 {A} (start : Z) (l : list A) : option A * list A :=
  let i := actual_start start (length l) in
  (l !! i, delete i l).

(** [l.splice(start, 0, x)]. *)
Definition splice_insert {A} (start : Z) (x : A) (l : list A) : list A :=
  let i := actual_start start (length l) in
  take i l ++ x :: drop i l.

(** reorderItems (App.jsx, lines 715-725), on [prev.items].  [None]: the
    array was empty, nothing was removed, and [undefined] was put into
    it. *)
Definition reorderItems (draggedId targetId : jsstring) (items : list Item.t)
    : option (list Item.t) :=
  if jsstring_eqb draggedId targetId then Some items
  else
    let draggedIndex := findIndex (fun i => Item.id i = draggedId) items in
    let targetIndex := findIndex (fun i => Item.id i = targetId) items in
    match splice_delete1 draggedIndex items with
    | (Some draggedItem, items) => Some (splice_insert targetIndex draggedItem items)
    | (None, _) => None
    end.

(** An item with the given id and bucket, for the examples. *)
Definition item_with (id bucket : string) : Item.t :=
  {| Item.id := js id;
     Item.bucketId := js bucket;
     Item.url := js "https://example.com/a";
     Item.title := js "Untitled link";
     Item.domain := js "example.com";
     Item.image := None;
     Item.metaStatus := status_pending;
     Item.metaAttempts := 0;
     Item.site := js "example.com";
     Item.createdAt := 1000;
     Item.userEditedTitle := false;
     Item.userEditedImage := false;
     Item.enrichFlash := false |}.

(** ** fetchPageMetadata (App.jsx, lines 150-247) *)

(** [s.includes(p)]. *)
Fixpoint includes (s pat : jsstring) : bool :=
  match s with
  | [] => startsWith [] pat
  | _ :: s' => startsWith s pat || includes s' pat
  end.

(** The JSON object the metadata proxy answers with: its [title] and
    [image], [None] for [null] or a missing key. *)
Module Json.
Record t : Type := mk {
  title : option jsstring;
  image : option jsstring
}.
End Json.

(** What the selectors of lines 170-185 find in a parsed document. *)
Module Doc.
Record t : Type := mk {
  page : Page.t;
  og_image : option jsstring;         (* meta[property="og:image"] content *)
  twitter_image : option jsstring;    (* meta[name="twitter:image"] content *)
  link_image_src : option jsstring;   (* link[rel="image_src"] href *)
  imgs : list (option jsstring * option jsstring)  (* src and data-src of each img *)
}.
End Doc.

(** How [fetch(u)] followed by [pRes.ok] and [pRes.json()] goes (lines
    204-206). *)
Inductive FetchJson : Type :=
  | fetch_throws
  | response_not_ok
  | json_throws
  | json_value (j : option Json.t).    (* [None]: the body is [null] *)

(** The network and the browser, as far as fetchPageMetadata asks them:
    each answer is a function of the request. *)
Module Net.
Record t : Type := mk {
  (* fetchJsonWithTimeout(u, timeout): [None] when it throws *)
  fetchJsonWithTimeout : jsstring -> nat -> option (option Json.t);
  fetch_json : jsstring -> FetchJson;
  (* tryFetchHtml(u) and the parsed document: [None] when it throws *)
  tryFetchHtml : jsstring -> option Doc.t;
  (* what loadImageWithTimeout(src, timeout, minWidth, minHeight) resolves to *)
  loadImageWithTimeout : jsstring -> nat -> nat -> nat -> bool;
  (* new URL(relative, base).href: [None] when the constructor throws *)
  resolve : jsstring -> jsstring -> option jsstring
}.
End Net.

(** [/\.(png|jpe?g|webp|gif|avif)$/i.test(src)]. *)
Definition has_picture_extension (src : jsstring) : bool :=
  existsb (fun ext => endsWith (toLowerCase src) ext)
          [js ".png"; js ".jpg"; js ".jpeg"; js ".webp"; js ".gif"; js ".avif"].

(** [url.replace(/^https?:\/\//, '')]. *)
Definition strip_scheme (url : jsstring) : jsstring :=
  match strip_prefix (js "http://") url with
  | Some r => r
  | None => match strip_prefix (js "https://") url with Some r => r | None => url end
  end.

Definition Metadata : Type := (option jsstring * option jsstring)%type.

Section FetchPageMetadata.

Variable RegExp_remove : jsstring -> jsstring -> jsstring.
Variable new_URL : jsstring -> option URL.t.
Variable encodeURIComponent : jsstring -> jsstring.
Variable net : Net.t.

(** The binding of the name [METADATA_PROXY] where fetchPageMetadata is
    declared: [None] when the name is not bound there, and reading it throws
    a ReferenceError. *)
Variable METADATA_PROXY : option jsstring.

(** [if (image) { ok = await loadImageWithTimeout(image, ...); if (!ok)
    image = null }], followed by [image || null]. *)
Definition validated (image : option jsstring) (timeout minWidth minHeight : nat)
    : option jsstring :=
  match image with
  | Some i =>
      if truthy i && Net.loadImageWithTimeout net i timeout minWidth minHeight
      then Some i else None
  | None => None
  end.

(** Lines 173-188 and 222-233: the image a document offers, before it is
    validated. *)
Definition document_image (doc : Doc.t) (url : jsstring) : option jsstring :=
  let ogImage :=
    js_or (js_or (js_or (Doc.og_image doc) (Doc.twitter_image doc)) (Doc.link_image_src doc))
          None in
  let ogImage :=
    match ogImage with
    | Some i =>
        if truthy i
        then match Net.resolve net i url with Some href => Some href | None => ogImage end
        else ogImage
    | None => ogImage
    end in
  if truthy_opt ogImage then ogImage
  else
    let imgs :=
      omap (fun '(src, data_src) =>
              match js_or src data_src with
              | Some s => if truthy s then Some s else None
              | None => None
              end)
           (Doc.imgs doc) in
    let candidate :=
      match find has_picture_extension imgs with
      | Some c => Some c
      | None => head imgs
      end in
    match candidate with
    | Some c =>
        match Net.resolve net c url with Some href => Some href | None => Some c end
    | None => ogImage
    end.

(** [normalizeTitle(raw, new URL(url).hostname) || null] with the image. *)
Definition metadata_of (raw : option jsstring) (image : option jsstring) (url : jsstring)
    : Completion Metadata :=
  match new_URL url with
  | Some u => returns (js_or (normalizeTitle RegExp_remove raw (URL.hostname u)) None, image)
  | None => throws
  end.

(** Lines 153-166: the local proxy. *)
Definition local_proxy (proxy url : jsstring) : Completion Metadata :=
  match Net.fetchJsonWithTimeout net (proxy ++ encodeURIComponent url) 1200 with
  | Some (Some json) =>
      metadata_of (js_or (Json.title json) (Some []))
                  (validated (Json.image json) 2000 200 120) url
  | Some None => throws   (* no value: the block is left *)
  | None => throws
  end.

(** Lines 168-196: the page itself. *)
Definition direct_fetch (url : jsstring) : Completion Metadata :=
  match Net.tryFetchHtml net url with
  | Some doc =>
      metadata_of (fetchPageMetadata_direct_rawTitle (Doc.page doc))
                  (validated (document_image doc url) 2500 200 120) url
  | None => throws
  end.

(** Lines 202-215: the proxy again, inside the [catch]. *)
Definition fallback_proxy (proxy url : jsstring) : Completion Metadata :=
  match Net.fetch_json net (proxy ++ encodeURIComponent url) with
  | json_value j =>
      metadata_of (js_or (j ≫= Json.title) (Some []))
                  (validated (j ≫= Json.image) 2500 0 0) url
  | _ => throws
  end.

(** Lines 218-240: the read proxy. *)
Definition read_proxy (url : jsstring) : Completion Metadata :=
  match Net.tryFetchHtml net (js "https://r.jina.ai/http://" ++ strip_scheme url) with
  | Some doc =>
      metadata_of (fetchPageMetadata_fallback_rawTitle (Doc.page doc))
                  (validated (document_image doc url) 2500 0 0) url
  | None => throws
  end.

(** The [try] block of lines 151-196. *)
Definition try_block (url : jsstring) : Completion Metadata :=
  match METADATA_PROXY with
  | None => throws
  | Some proxy =>
      let from_proxy :=
        if truthy proxy && includes proxy (js "localhost")
        then local_proxy proxy url else throws in
      match from_proxy with
      | returns m => returns m
      | throws => direct_fetch url
      end
  end.

(** The [catch] block of lines 197-245; [None] is [null]. *)
Definition catch_err (url : jsstring) : option Metadata :=
  match METADATA_PROXY with
  | None => None
  | Some proxy =>
      let from_proxy := if truthy proxy then fallback_proxy proxy url else throws in
      match from_proxy with
      | returns m => Some m
      | throws =>
          match read_proxy url with
          | returns m => Some m
          | throws => None
          end
      end
  end.

Definition fetchPageMetadata (url : jsstring) : option Metadata :=
  match try_block url with
  | returns m => Some m
  | throws => catch_err url
  end.

End FetchPageMetadata.

(** A document for the examples, and a network that serves it for one
    address and fails otherwise. *)
Definition sample_doc : Doc.t :=
  {| Doc.page :=
       {| Page.og_title := Some (js "Honda City Price - CarDekho");
          Page.twitter_title := None;
          Page.title_text := Some (js "Honda City");
          Page.meta_description := None;
          Page.og_description := None |};
     Doc.og_image := Some (js "/img/city.png");
     Doc.twitter_image := None;
     Doc.link_image_src := None;
     Doc.imgs := [] |}.

Definition net_serving (doc : Doc.t) : Net.t :=
  {| Net.fetchJsonWithTimeout := fun _ _ => None;
     Net.fetch_json := fun _ => fetch_throws;
     Net.tryFetchHtml :=
       fun u => if bool_decide (u = js "https://example.com/cars/honda/city")
                then Some doc else None;
     Net.loadImageWithTimeout :=
       fun src _ _ _ => bool_decide (src = js "https://example.com/img/city.png");
     Net.resolve := fun rel _ => Some (js "https://example.com" ++ rel) |}.



(** A result of fetchPageMetadata is well made when the URL was parsed, the
    title came from normalizeTitle and the image was validated. *)
Definition well_made (e : jsstring -> jsstring -> jsstring)
    (new_URL : jsstring -> option URL.t) (net : Net.t) (url : jsstring) (m : Metadata)
    : Prop :=
  (exists u, new_URL url = Some u
     /\ (m.1 = None \/
         exists raw r, normalizeTitle e raw (URL.hostname u) = Some r /\ m.1 = Some r))
  /\ (forall i, m.2 = Some i ->
        i <> [] /\ exists timeout w h,
          Net.loadImageWithTimeout net i timeout w h = true /\ 2000 <= timeout).



(** ** The proxy server (metadata-proxy.js, lines 12-74) *)

(** What the regular expressions of lines 20-34 capture in the text of a
    page: the first group of each match, [None] without a match. *)
Module Html.
Record t : Type := mk {
  titles : Page.t;                            (* og:title, twitter:title, <title> *)
  og_image : option jsstring;
  twitter_image_name : option jsstring;       (* meta name="twitter:image" *)
  twitter_image_property : option jsstring;   (* meta property="twitter:image" *)
  link_image : option jsstring;
  img_srcs : list jsstring                    (* every <img src>, in page order *)
}.
End Html.

(** [fetch(url)], [r.ok] and [r.text()] of lines 16-18. *)
Inductive Upstream : Type :=
  | upstream_throws
  | upstream_not_ok
  | upstream_html (h : Html.t).

(** The HEAD request of validateImage: [rimg.ok] and the content-type
    header. *)
Inductive Head : Type :=
  | head_throws
  | head_response (ok : bool) (content_type : option jsstring).

Module Web.
Record t : Type := mk {
  fetch : jsstring -> Upstream;
  head : jsstring -> Head;
  (* new URL(src, url).href *)
  resolve : jsstring -> jsstring -> option jsstring
}.
End Web.

(** [res.status(code).json({ error })], or [res.json(json)]. *)
Inductive Response : Type :=
  | error_response (status : nat) (error : jsstring)
  | json_response (title image : option jsstring) (site : jsstring).

(** [/logo|icon|sprite|ads?|badge|googlesyndication/i.test(c)]; [ads?]
    matches wherever [ad] occurs. *)
Definition looks_like_logo (c : jsstring) : bool :=
  existsb (fun w => contains_ci w c)
          [js "logo"; js "icon"; js "sprite"; js "ad"; js "badge"; js "googlesyndication"].

Section Server.

Variable new_URL : jsstring -> option URL.t.
Variable web : Web.t.

(** validateImage (lines 39-50); [None] is [null]. *)
Definition validateImage (url src : jsstring) : option jsstring :=
  match Web.resolve web src url with
  | Some abs =>
      match Web.head web abs with
      | head_response true ct =>
          if contains_ci (js "image/") (default [] ct) then Some abs else None
      | _ => None
      end
  | None => None
  end.

(** The candidates in the order of preference (line 54). *)
Definition ranking (h : Html.t) : list jsstring :=
  let group (m : option jsstring) : list jsstring :=
    match m with Some g => if truthy g then [g] else [] | None => [] end in
  let twitterImageMatch :=
    match Html.twitter_image_name h with
    | Some g => Some g
    | None => Html.twitter_image_property h
    end in
  group (Html.og_image h) ++ group twitterImageMatch ++ group (Html.link_image h)
    ++ take 12 (Html.img_srcs h).

(** The loop of lines 55-61. *)
Fixpoint choose_image (url : jsstring) (candidates : list jsstring) : option jsstring :=
  match candidates with
  | [] => None
  | c :: rest =>
      if negb (truthy c) then choose_image url rest
      else if looks_like_logo c then choose_image url rest
      else match validateImage url c with
           | Some ok => if truthy ok then Some ok else choose_image url rest
           | None => choose_image url rest
           end
  end.

(** The handler of [GET /fetch]; [url] is [req.query.url]. *)
Definition fetch_handler (url : option jsstring) : Response :=
  match url with
  | None | Some [] => error_response 400 (js "url required")
  | Some url =>
      match Web.fetch web url with
      | upstream_throws => error_response 500 (js "fetch failed")
      | upstream_not_ok => error_response 502 (js "bad upstream")
      | upstream_html h =>
          let chosenImage := choose_image url (ranking h) in
          match new_URL url with
          | Some u =>
              json_response (proxy_title (Html.titles h)) (js_or chosenImage None)
                            (strip_www (URL.hostname u))
          | None => error_response 500 (js "fetch failed")
          end
      end
  end.

(** A candidate the loop passes over. *)
Definition passed_over (url c : jsstring) : Prop :=
  c = [] \/ looks_like_logo c = true
  \/ validateImage url c = None \/ validateImage url c = Some [].

End Server.

(** A page and a web for the examples: the og:image is a logo, the first
    img is an upload the logo test also rejects, the second img is served
    as an image. *)
Definition sample_html : Html.t :=
  {| Html.titles :=
       {| Page.og_title := Some (js "Honda City");
          Page.twitter_title := None;
          Page.title_text := None;
          Page.meta_description := None;
          Page.og_description := None |};
     Html.og_image := Some (js "/static/logo.png");
     Html.twitter_image_name := None;
     Html.twitter_image_property := None;
     Html.link_image := None;
     Html.img_srcs := [js "/uploads/city.png"; js "/img/city.png"] |}.

Definition sample_web : Web.t :=
  {| Web.fetch := fun _ => upstream_html sample_html;
     Web.head := fun _ => head_response true (Some (js "image/png"));
     Web.resolve := fun src _ => Some (js "https://example.com" ++ src) |}.

(** ** The capture form *)

Section Capture.

Variable RegExp_remove : jsstring -> jsstring -> jsstring.
Variable new_URL : jsstring -> option URL.t.

(** handleSubmit (App.jsx, lines 855-856), the branch for a typed address:
    the call of addItem.  [quickTitle] and [quickImage] are what the two
    quick fetches resolved to, [None] for [null]. *)
Definition handleSubmit_addItem (data : list Item.t) (inputValue selectedBucketId : jsstring)
    (quickTitle quickImage : option jsstring) (now : Z) (newId : jsstring) (s : Store.t)
    : AddResult :=
  let fallbackImage := js_or quickImage (getFavicon new_URL inputValue) in
  addItem RegExp_remove new_URL data inputValue selectedBucketId type_url
          quickTitle fallbackImage now newId s.

(** Lines 863-864: whether the form says that the link is already saved;
    [id] is what addItem returned and [now] the time of the test. *)
Definition handleSubmit_already_saved (data : list Item.t) (inputValue id : jsstring)
    (now : Z) : bool :=
  match find_item id data with
  | Some found =>
      jsstring_eqb (Item.url found) inputValue
      && (9000 <? now - Item.createdAt found)%Z
  | None => false
  end.

End Capture.

(** [new URL] on an address with and without a slash at its end. *)
Definition slash_URL (url : jsstring) : option URL.t :=
  if bool_decide (url = js "https://example.com/cars/honda/city")
  then Some (URL.mk (js "example.com") (js "/cars/honda/city"))
  else if bool_decide (url = js "https://example.com/cars/honda/city/")
  then Some (URL.mk (js "example.com") (js "/cars/honda/city/"))
  else None.

(** ** fetchImageQuick (App.jsx, lines 307-347) *)

(** [/\.(png|jpe?g|webp|avif)$/i.test(s) && !/logo|icon|sprite|ads?/i.test(s)]. *)
Definition quick_candidate (s : jsstring) : bool :=
  existsb (fun ext => endsWith (toLowerCase s) ext)
          [js ".png"; js ".jpg"; js ".jpeg"; js ".webp"; js ".avif"]
  && negb (existsb (fun w => contains_ci w s) [js "logo"; js "icon"; js "sprite"; js "ad"]).

Section FetchImageQuick.

Variable encodeURIComponent : jsstring -> jsstring.
Variable net : Net.t.

(** The fetch of lines 322-325 with its abort timer: the text of the page
    as the regular expressions of lines 328-336 see it, [None] when the
    fetch throws, is aborted or is not ok. *)
Variable quick_text : jsstring -> nat -> option Html.t.

Variable METADATA_PROXY : option jsstring.

(** Lines 309-317. *)
Definition quick_proxy_image (proxy url : jsstring) (timeout : nat) : option jsstring :=
  match Net.fetchJsonWithTimeout net (proxy ++ encodeURIComponent url) (Nat.min timeout 900) with
  | Some (Some json) =>
      match Json.image json with
      | Some i =>
          if truthy i && Net.loadImageWithTimeout net i 1200 200 120 then Some i else None
      | None => None
      end
  | _ => None
  end.

(** Lines 328-344. *)
Definition quick_page_image (h : Html.t) (url : jsstring) : option jsstring :=
  let m :=
    match Html.og_image h with
    | Some g => Some g
    | None =>
        match Html.twitter_image_name h with
        | Some g => Some g
        | None => Html.link_image h
        end
    end in
  let candidate := match m with Some g => if truthy g then Some g else None | None => None end in
  let candidate :=
    match candidate with
    | Some c => Some c
    | None =>
        let imgMatches := Html.img_srcs h in
        js_or (js_or (find quick_candidate imgMatches) (head imgMatches)) None
    end in
  match candidate with
  | Some c =>
      let c := match Net.resolve net c url with Some href => href | None => c end in
      if Net.loadImageWithTimeout net c 1200 0 0 then Some c else None
  | None => None
  end.

Definition fetchImageQuick (url : jsstring) (timeout : nat) : option jsstring :=
  match METADATA_PROXY with
  | None => None
  | Some proxy =>
      let from_proxy := if truthy proxy then quick_proxy_image proxy url timeout else None in
      match from_proxy with
      | Some i => Some i
      | None =>
          match quick_text url timeout with
          | Some h => quick_page_image h url
          | None => None
          end
      end
  end.

End FetchImageQuick.



(** * Proofs *)

(** ** Characters *)

Ltac each_char c := destruct c as [[] [] [] [] [] [] [] []]; vm_compute; try reflexivity; try congruence.

Lemma toLowerCase_char_idem c :
  Char.toLowerCase (Char.toLowerCase c) = Char.toLowerCase c.
Proof. each_char c. Qed.

Lemma toLowerCase_toUpperCase c :
  Char.toLowerCase c = c -> Char.toLowerCase (Char.toUpperCase c) = c.
Proof. each_char c. Qed.


Lemma is_space_toUpperCase c : Char.is_space (Char.toUpperCase c) = Char.is_space c.
Proof. each_char c. Qed.



Lemma char_eqb_eq a b : Char.eqb a b = true <-> a = b.
Proof. apply Ascii.eqb_eq. Qed.

Lemma pipe_is_separator c : Char.eqb c "|"%char = true -> Char.is_separator c = true.
Proof. intros H%char_eqb_eq. subst. reflexivity. Qed.

(** ** Tokens *)

Lemma tokens_wf s : Forall wf_token (tokens s).
Proof.
  induction s as [|c s IH]; simpl; [constructor|].
  destruct (Char.is_space c) eqn:Hc; [done|].
  destruct (starts_token s) eqn:Hs.
  - destruct (tokens s) as [|t ts].
    + repeat constructor; done.
    + inversion IH as [|? ? [Hne Ht] Hts]; subst.
      constructor; [|done]. split; [done|]. by constructor.
  - constructor; [|done]. split; [done|]. by repeat constructor.
Qed.

Lemma tokens_Forall (P : ascii -> Prop) s :
  Forall P s -> Forall (Forall P) (tokens s).
Proof.
  induction 1 as [|c s Hc Hs IH]; simpl; [constructor|].
  destruct (Char.is_space c); [done|].
  destruct (starts_token s).
  - destruct (tokens s) as [|t ts]; [by repeat constructor|].
    inversion IH; subst. constructor; [by constructor|done].
  - constructor; [by repeat constructor|done].
Qed.

Lemma tokens_cons_token c s :
  Char.is_space c = false ->
  tokens (c :: s) =
    if starts_token s
    then match tokens s with t :: ts => (c :: t) :: ts | [] => [[c]] end
    else [c] :: tokens s.
Proof. intros H. simpl. by rewrite H. Qed.

Lemma starts_token_app w rest : wf_token w -> starts_token (w ++ rest) = true.
Proof.
  intros [Hne Hw]. destruct w as [|c w]; [done|].
  inversion Hw as [|? ? Hc _]; subst. simpl. by rewrite Hc.
Qed.

Lemma tokens_token_space w rest :
  wf_token w -> tokens (w ++ " "%char :: rest) = w :: tokens rest.
Proof.
  intros [Hne Hw]. induction w as [|c w IH]; [done|].
  inversion Hw as [|? ? Hc Hw']; subst.
  rewrite <- app_comm_cons, tokens_cons_token by done.
  destruct w as [|c' w]; [done|].
  rewrite starts_token_app by done. by rewrite IH.
Qed.

Lemma tokens_token w : wf_token w -> tokens w = [w].
Proof.
  intros [Hne Hw]. induction w as [|c w IH]; [done|].
  inversion Hw as [|? ? Hc Hw']; subst.
  rewrite tokens_cons_token by done.
  destruct w as [|c' w]; [done|].
  rewrite <- (app_nil_r (c' :: w)) at 1.
  rewrite starts_token_app by done. by rewrite IH.
Qed.

Lemma join_space_cons w w' r :
  join_space (w :: w' :: r) = w ++ " "%char :: join_space (w' :: r).
Proof. reflexivity. Qed.

Lemma tokens_join_space ts : Forall wf_token ts -> tokens (join_space ts) = ts.
Proof.
  induction 1 as [|w ts Hw Hts IH]; [done|].
  destruct ts as [|w' ts].
  - simpl. by apply tokens_token.
  - rewrite join_space_cons, tokens_token_space by done. by rewrite IH.
Qed.

(** ** The filter of the tokens seen before *)

Lemma filter_unseen_spec seen ws :
  NoDup (filter_unseen seen ws)
  /\ (forall w, w ∈ filter_unseen seen ws -> w ∈ ws /\ w ∉ seen).
Proof.
  revert seen. induction ws as [|w ws IH]; intros seen; simpl.
  - split; [constructor|]. intros w Hw. by apply elem_of_nil in Hw.
  - destruct (decide (w ∈ seen)) as [Hin|Hnin].
    + destruct (IH seen) as [Hnd Hsub]. split; [done|].
      intros x Hx. destruct (Hsub x Hx). split; [by right|done].
    + destruct (IH ({[w]} ∪ seen)) as [Hnd Hsub]. split.
      * constructor; [|done]. intros Hw. apply Hsub in Hw as [_ Hw].
        apply Hw, elem_of_union_l, elem_of_singleton. reflexivity.
      * intros x [->|Hx]%elem_of_cons; [split; [by left|done]|].
        apply Hsub in Hx as [? Hx]. split; [by right|].
        intros Hs. apply Hx, elem_of_union_r, Hs.
Qed.

Lemma filter_unseen_NoDup ws : NoDup (filter_unseen ∅ ws).
Proof. apply filter_unseen_spec. Qed.

Lemma filter_unseen_Forall (P : jsstring -> Prop) seen ws :
  Forall P ws -> Forall P (filter_unseen seen ws).
Proof.
  intros H. apply Forall_forall. intros w Hw.
  apply filter_unseen_spec in Hw as [Hw _]. by eapply Forall_forall in H.
Qed.

Lemma filter_unseen_id seen ws :
  NoDup ws -> (forall w, w ∈ ws -> w ∉ seen) -> filter_unseen seen ws = ws.
Proof.
  intros Hnd. revert seen. induction Hnd as [|w ws Hw Hnd IH]; intros seen Hdis; [done|].
  simpl. destruct (decide (w ∈ seen)) as [Hin|_].
  - exfalso. apply (Hdis w); [by left|done].
  - f_equal. apply IH. intros x Hx [->%elem_of_singleton|Hs]%elem_of_union; [done|].
    apply (Hdis x); [by right|done].
Qed.

(** ** Joining tokens: the later white-space steps change nothing *)

Lemma collapse_spaces_token_app w rest :
  Forall (fun c => Char.is_space c = false) w ->
  collapse_spaces (w ++ rest) = w ++ collapse_spaces rest.
Proof.
  induction 1 as [|c w Hc Hw IH]; [done|]. simpl. by rewrite Hc, IH.
Qed.

Lemma collapse_spaces_space s :
  starts_token s = true ->
  collapse_spaces (" "%char :: s) = " "%char :: collapse_spaces s.
Proof. intros H. simpl. by rewrite H. Qed.

Lemma collapse_spaces_join ts :
  Forall wf_token ts -> collapse_spaces (join_space ts) = join_space ts.
Proof.
  induction 1 as [|w ts [Hne Hw] Hts IH]; [done|].
  destruct ts as [|w' ts].
  - simpl. rewrite <- (app_nil_r w) at 1.
    rewrite collapse_spaces_token_app by done. simpl. by rewrite app_nil_r.
  - rewrite join_space_cons, collapse_spaces_token_app by done. f_equal.
    assert (Hst : starts_token (join_space (w' :: ts)) = true).
    { inversion Hts as [|? ? Hw' _]; subst.
      destruct ts; [|rewrite join_space_cons]; simpl;
        [rewrite <- (app_nil_r w')|]; by apply starts_token_app. }
    rewrite collapse_spaces_space by done. by rewrite IH.
Qed.

Lemma trim_start_starts s : starts_token s = true -> trim_start s = s.
Proof.
  destruct s as [|c s]; [done|]. simpl. intros H%negb_true_iff. by rewrite H.
Qed.

Lemma starts_token_join ts :
  Forall wf_token ts -> ts <> [] -> starts_token (join_space ts) = true.
Proof.
  intros Hts Hne. destruct Hts as [|w ts Hw Hts]; [done|].
  destruct ts; [|rewrite join_space_cons]; simpl;
    [rewrite <- (app_nil_r w)|]; by apply starts_token_app.
Qed.

Lemma starts_token_rev_token w rest :
  wf_token w -> starts_token (rev (rest ++ w)) = true.
Proof.
  intros [Hne Hw]. rewrite rev_app_distr.
  destruct (rev w) as [|c r] eqn:Hr.
  - apply (f_equal (@rev _)) in Hr. rewrite rev_involutive in Hr. done.
  - simpl. apply negb_true_iff.
    assert (Hin : In c (rev w)) by (rewrite Hr; by left).
    apply in_rev in Hin. rewrite Forall_forall in Hw.
    apply Hw. by apply list_elem_of_In.
Qed.

Lemma starts_token_rev_join ts :
  Forall wf_token ts -> ts <> [] -> starts_token (rev (join_space ts)) = true.
Proof.
  induction 1 as [|w ts Hw Hts IH]; [done|]. intros _.
  destruct ts as [|w' ts].
  - simpl. by apply (starts_token_rev_token w []).
  - rewrite join_space_cons.
    change (w ++ " "%char :: join_space (w' :: ts))
      with (w ++ [" "%char] ++ join_space (w' :: ts)).
    rewrite !rev_app_distr.
    specialize (IH ltac:(done)).
    destruct (rev (join_space (w' :: ts))) as [|c r]; [done|].
    simpl in *. done.
Qed.

Lemma trim_join ts : Forall wf_token ts -> trim (join_space ts) = join_space ts.
Proof.
  intros Hts. destruct ts as [|w ts]; [done|]. unfold trim.
  rewrite (trim_start_starts (join_space _)) by (by apply starts_token_join).
  rewrite trim_start_starts by (by apply starts_token_rev_join).
  apply rev_involutive.
Qed.

(** ** Capitalisation *)

Lemma capitalize_from_length prev s : length (capitalize_from prev s) = length s.
Proof. revert prev. induction s as [|c s IH]; intros prev; simpl; [done|]. by rewrite IH. Qed.

Lemma capitalize_from_not_word prev s :
  word_at prev = false -> capitalize_from prev s = capitalize s.
Proof. intros H. destruct s as [|c s]; [done|]. unfold capitalize. simpl. by rewrite H. Qed.

Lemma capitalize_from_token_space prev w rest :
  capitalize_from prev (w ++ " "%char :: rest) =
    capitalize_from prev w ++ " "%char :: capitalize rest.
Proof.
  revert prev. induction w as [|c w IH]; intros prev; simpl.
  - f_equal. by apply capitalize_from_not_word.
  - by rewrite IH.
Qed.

Lemma capitalize_token_space w rest :
  capitalize (w ++ " "%char :: rest) = capitalize w ++ " "%char :: capitalize rest.
Proof. apply capitalize_from_token_space. Qed.

Lemma capitalize_join ts : capitalize (join_space ts) = join_space (map capitalize ts).
Proof.
  induction ts as [|w ts IH]; [done|].
  destruct ts as [|w' ts]; [done|].
  rewrite join_space_cons, capitalize_token_space, IH. done.
Qed.

Lemma capitalize_from_spaces prev s :
  map Char.is_space (capitalize_from prev s) = map Char.is_space s.
Proof.
  revert prev. induction s as [|c s IH]; intros prev; simpl; [done|].
  rewrite IH. f_equal. destruct (_ && _); [apply is_space_toUpperCase|done].
Qed.

Lemma capitalize_wf_token w : wf_token w -> wf_token (capitalize w).
Proof.
  intros [Hne Hw]. split.
  - intros H. apply (f_equal length) in H. unfold capitalize in H.
    rewrite capitalize_from_length in H. by destruct w.
  - apply Forall_forall. intros c Hc.
    assert (Hall : forallb (fun b => negb b) (map Char.is_space (capitalize w)) = true).
    { unfold capitalize. rewrite capitalize_from_spaces.
      apply forallb_forall. intros b [x [<- Hx]]%in_map_iff.
      rewrite Forall_forall in Hw. rewrite Hw; [done|by apply list_elem_of_In]. }
    rewrite forallb_forall in Hall.
    apply negb_true_iff, Hall, in_map, list_elem_of_In, Hc.
Qed.

Lemma toLowerCase_capitalize_from prev s :
  Forall lower_fixed s -> toLowerCase (capitalize_from prev s) = s.
Proof.
  intros H. revert prev. induction H as [|c s Hc Hs IH]; intros prev; [done|].
  unfold toLowerCase in *. simpl. rewrite IH. f_equal.
  destruct (_ && _); [by apply toLowerCase_toUpperCase|done].
Qed.





(** ** The removal steps only remove *)

Lemma remove_matches_In m prev skip s c :
  In c (remove_matches m prev skip s) -> In c s.
Proof.
  revert prev skip. induction s as [|x s IH]; intros prev skip; simpl; [done|].
  destruct skip as [|k].
  - destruct (m prev (x :: s)) as [[|k]|]; simpl; intros H;
      try (destruct H as [H|H]; [by left|]); right; eapply IH, H.
  - intros H. right. eapply IH, H.
Qed.

Lemma strip_pipe_suffix_In s c : In c (strip_pipe_suffix s) -> In c s.
Proof.
  induction s as [|x s IH]; simpl; [done|].
  destruct (_ && _); simpl; [done|]. intros [H|H]; [by left|right; by apply IH].
Qed.

Lemma remove_site_In e domain title c :
  only_removes e -> In c (remove_site e domain title) -> In c title.
Proof.
  intros He. unfold remove_site. destruct domain as [|d domain]; [done|].
  destruct (simple_pattern _).
  - apply remove_matches_In.
  - apply He.
Qed.

Lemma remove_boilerplate_In title c : In c (remove_boilerplate title) -> In c title.
Proof.
  unfold remove_boilerplate. generalize boilerplate. intros ws. revert title.
  induction ws as [|w ws IH]; intros title; simpl; [done|].
  intros H. apply IH in H. eapply remove_matches_In, H.
Qed.

Lemma replace_separators_lower_fixed title :
  Forall lower_fixed title -> Forall lower_fixed (replace_separators title).
Proof.
  unfold replace_separators. induction 1 as [|c s Hc Hs IH]; simpl; constructor; [|done].
  destruct (Char.is_separator c); [reflexivity|done].
Qed.

Lemma replace_separators_none title :
  Forall (fun c => Char.is_separator c = false) (replace_separators title).
Proof.
  unfold replace_separators. induction title as [|c s IH]; simpl; constructor; [|done].
  destruct (Char.is_separator c) eqn:H; [reflexivity|done].
Qed.

Lemma replace_separators_id title :
  Forall (fun c => Char.is_separator c = false) title -> replace_separators title = title.
Proof.
  unfold replace_separators. induction 1 as [|c s Hc Hs IH]; simpl; [done|].
  by rewrite Hc, IH.
Qed.

Lemma strip_pipe_suffix_id title :
  Forall (fun c => Char.is_separator c = false) title -> strip_pipe_suffix title = title.
Proof.
  induction 1 as [|c s Hc Hs IH]; simpl; [done|].
  destruct (Char.eqb c "|"%char) eqn:Hp.
  - apply pipe_is_separator in Hp. congruence.
  - simpl. by rewrite IH.
Qed.

Lemma Forall_In_transfer (P : ascii -> Prop) (a b : jsstring) :
  (forall c, In c a -> In c b) -> Forall P b -> Forall P a.
Proof.
  intros Hab Hb. apply Forall_forall. intros c Hc%list_elem_of_In.
  rewrite Forall_forall in Hb. by apply Hb, list_elem_of_In, Hab.
Qed.

Lemma join_space_Forall (P : ascii -> Prop) ts :
  P " "%char -> Forall (Forall P) ts -> Forall P (join_space ts).
Proof.
  intros Hsp. induction 1 as [|w ts Hw Hts IH]; [constructor|].
  destruct ts as [|w' ts]; [done|].
  rewrite join_space_cons. apply Forall_app. split; [done|]. by constructor.
Qed.

(** ** The shape of the title before capitalisation *)

Lemma clean_tokens_wf e raw domain : Forall wf_token (clean_tokens e raw domain).
Proof. apply filter_unseen_Forall, tokens_wf. Qed.

Lemma clean_tokens_NoDup e raw domain : NoDup (clean_tokens e raw domain).
Proof. apply filter_unseen_NoDup. Qed.

Lemma clean_tokens_no_separator e raw domain :
  Forall (Forall (fun c => Char.is_separator c = false)) (clean_tokens e raw domain).
Proof. apply filter_unseen_Forall, tokens_Forall, replace_separators_none. Qed.

Lemma clean_tokens_lower_fixed e raw domain :
  only_removes e -> Forall (Forall lower_fixed) (clean_tokens e raw domain).
Proof.
  intros He. apply filter_unseen_Forall, tokens_Forall, replace_separators_lower_fixed.
  eapply Forall_In_transfer; [apply remove_boilerplate_In|].
  eapply Forall_In_transfer; [intros c; by apply remove_site_In|].
  eapply Forall_In_transfer; [apply strip_pipe_suffix_In|].
  unfold toLowerCase. apply Forall_forall. intros c [x [-> _]]%list_elem_of_fmap.
  apply toLowerCase_char_idem.
Qed.

Lemma clean_title_join e raw domain :
  clean_title e raw domain = join_space (clean_tokens e raw domain).
Proof.
  unfold clean_title. fold (clean_tokens e raw domain).
  rewrite collapse_spaces_join, trim_join by apply clean_tokens_wf. done.
Qed.

Lemma normalizeTitle_Some e raw domain r :
  normalizeTitle e raw domain = Some r ->
  exists x, raw = Some x /\ x <> [] /\
    r = capitalize (join_space (clean_tokens e x domain)) /\ 3 <= length r.
Proof.
  unfold normalizeTitle. destruct raw as [[|c x]|]; [intros [=]| |intros [=]].
  rewrite clean_title_join.
  destruct (join_space _) as [|c' t] eqn:Hj; [intros [=]|].
  destruct (_ <? 3) eqn:Hlen; [intros [=]|]. intros [= <-].
  exists (c :: x). split_and!; [done|done|by rewrite Hj|].
  by apply Nat.ltb_ge in Hlen.
Qed.

Lemma tokens_capitalize_join ts :
  Forall wf_token ts -> tokens (capitalize (join_space ts)) = map capitalize ts.
Proof.
  intros Hts. rewrite capitalize_join. apply tokens_join_space.
  apply Forall_fmap. eapply Forall_impl; [exact Hts|]. apply capitalize_wf_token.
Qed.

Lemma RegExp_skip_only_removes : only_removes RegExp_skip.
Proof. intros src t c H. exact H. Qed.

(** ** normalizeTitle: the claims *)

Example normalizeTitle_honda e :
  normalizeTitle e (Some (js "Honda City | Price, Images, Specs - CarDekho"))
                 (js "cardekho.com") = Some (js "Honda City").
Proof. vm_compute. reflexivity. Qed.

Example normalizeTitle_boilerplate e :
  normalizeTitle e (Some (js "Latest News: the on-road price of a Tata-Nexon on Road"))
                 (js "www.example.org") = Some (js "The Of A Tata Nexon").
Proof. vm_compute. reflexivity. Qed.




(** C7.  The site label is removed wherever the pattern built from it
    matches, not as a whole word: with the domain www.art.com the label
    "art" is cut out of "smart" and of "party".  A removal of the whole word
    only, as the boilerplate step does it, would leave the title as it
    is. *)
Theorem normalizeTitle_site_label_inside_words e :
  normalizeTitle e (Some (js "Smart party ideas")) (js "www.art.com")
    = Some (js "Sm Py Ideas")
  /\ site_of (js "www.art.com") = js "art"
  /\ replace_all_with_empty (word_matcher (js "art")) (js "smart party ideas")
       = js "smart party ideas".
Proof. split_and!; vm_compute; reflexivity. Qed.

(** C8, as stated, fails: "On: Road 66" is normalised to "On Road 66", and
    normalising that again removes the boilerplate phrase "on road" the
    first run had no match for, which leaves two characters and so null. *)
Lemma normalizeTitle_rerun_counterexample :
  ~ (forall e x d y,
       only_removes e ->
       normalizeTitle e x d = Some y ->
       normalizeTitle e (Some y) d <> None).
Proof.
  intros H.
  apply (H RegExp_skip (Some (js "On: Road 66")) (js "example.com") (js "On Road 66")
           RegExp_skip_only_removes); vm_compute; reflexivity.
Qed.

(** C8, amended.  When normalizeTitle(x, d) is a string y, and neither the
    site-label step nor the boilerplate step finds anything to remove in the
    lower-cased y, then normalizeTitle(y, d) is y again: not null, and with
    the same capitalisation. *)
Theorem normalizeTitle_rerun_stable e x d y :
  only_removes e ->
  normalizeTitle e x d = Some y ->
  remove_site e d (toLowerCase y) = toLowerCase y ->
  remove_boilerplate (toLowerCase y) = toLowerCase y ->
  normalizeTitle e (Some y) d = Some y.
Proof.
  intros He Hn Hsite Hboiler.
  apply normalizeTitle_Some in Hn as (x' & -> & Hx & -> & Hlen).
  set (ts := clean_tokens e x' d) in *.
  pose proof (clean_tokens_wf e x' d) as Hwf.
  pose proof (clean_tokens_NoDup e x' d) as Hnd.
  pose proof (clean_tokens_no_separator e x' d) as Hsep.
  pose proof (clean_tokens_lower_fixed e x' d He) as Hlow.
  fold ts in Hwf, Hnd, Hsep, Hlow.
  assert (Hlower : toLowerCase (capitalize (join_space ts)) = join_space ts).
  { apply toLowerCase_capitalize_from, join_space_Forall; [reflexivity|done]. }
  assert (Hnosep : Forall (fun c => Char.is_separator c = false) (join_space ts)).
  { apply join_space_Forall; [reflexivity|done]. }
  rewrite Hlower in Hsite, Hboiler.
  assert (Hclean : clean_title e (capitalize (join_space ts)) d = join_space ts).
  { unfold clean_title.
    rewrite Hlower, strip_pipe_suffix_id, Hsite, Hboiler, replace_separators_id by done.
    rewrite tokens_join_space by done.
    rewrite filter_unseen_id by (done || (intros w _; apply not_elem_of_empty)).
    by rewrite collapse_spaces_join, trim_join. }
  unfold normalizeTitle. rewrite Hclean.
  destruct (capitalize (join_space ts)) as [|c r] eqn:Hc; [simpl in Hlen; lia|].
  destruct (join_space ts) as [|c' t] eqn:Hj; [done|].
  rewrite Hc. apply Nat.ltb_ge in Hlen. by rewrite Hlen.
Qed.

Lemma normalizeTitle_rerun_stable_witness :
  normalizeTitle RegExp_skip (Some (js "Honda City")) (js "cardekho.com")
    = Some (js "Honda City").
Proof.
  apply (normalizeTitle_rerun_stable RegExp_skip
           (Some (js "Honda City | Price, Images, Specs - CarDekho"))).
  - intros src t c H. exact H.
  - vm_compute. reflexivity.
  - vm_compute. reflexivity.
  - vm_compute. reflexivity.
Defined.

(** ** The store *)

Lemma jsstring_eqb_eq a b : jsstring_eqb a b = true <-> a = b.
Proof. unfold jsstring_eqb. apply bool_decide_eq_true. Qed.

Lemma find_item_updateItem id u s :
  find_item id (Store.items (updateItem id u s)) =
    option_map (fun i => merge i u) (find_item id (Store.items s)).
Proof.
  unfold updateItem, find_item. simpl. induction (Store.items s) as [|i l IH]; [done|].
  simpl. destruct (jsstring_eqb (Item.id i) id) eqn:Hi; simpl.
  - by rewrite Hi.
  - by rewrite Hi, IH.
Qed.

Lemma shouldSetTitle_user_edited cur inferred :
  Item.userEditedTitle cur = true -> shouldSetTitle (Some cur) inferred = false.
Proof. intros H. unfold shouldSetTitle. by rewrite H. Qed.

Lemma shouldSetImage_user_edited cur img :
  Item.userEditedImage cur = true -> shouldSetImage (Some cur) img = false.
Proof. intros H. unfold shouldSetImage. by rewrite H. Qed.

(** ** enrichUrlMetadata: the claims *)

Example inferTitleFromUrl_cars :
  inferTitleFromUrl RegExp_skip sample_URL (js "https://example.com/cars/honda/city")
    = Some (js "Honda City").
Proof. vm_compute. reflexivity. Qed.

Example inferTitleFromUrl_root :
  inferTitleFromUrl RegExp_skip sample_URL (js "https://example.com/") = None.
Proof. vm_compute. reflexivity. Qed.

Example inferTitleFromUrl_unparsed :
  inferTitleFromUrl RegExp_skip sample_URL (js "not a url") = None.
Proof. vm_compute. reflexivity. Qed.

(** Every call is rejected from the [catch] block, with the store as it
    was. *)
Lemma enrichUrlMetadata_rejected id url s :
  enrichUrlMetadata id url s = ended (rejected s).
Proof. reflexivity. Qed.



(** C3, as stated, fails.  The attempt on the item of [fresh_store], which
    is 'pending' with no attempt made and has no cache entry, fails: the
    call throws at line 355.  The [catch] block, which is to mark the item
    'failed', count the attempt and set the retry, throws at line 412, so
    the call is rejected: the item is still 'pending', its metaAttempts is
    still 0 and no timer is set.  The same holds of every call: it leaves
    the store as it was. *)
Theorem enrichUrlMetadata_failure_sets_nothing :
  (forall id url s, enrichUrlMetadata id url s = ended (rejected s))
  /\ exists o,
       enrichUrlMetadata (js "k3x9q") (js "https://example.com/cars/honda/city") fresh_store
         = ended o
       /\ Store.cache fresh_store !! js "https://example.com/cars/honda/city" = None
       /\ find_item (js "k3x9q") (Store.items (store_of o)) = Some fresh_item
       /\ Item.metaStatus fresh_item = status_pending
       /\ Item.metaAttempts fresh_item = 0
       /\ Store.timers (store_of o) = [].
Proof.
  split; [intros; apply enrichUrlMetadata_rejected|].
  exists (rejected fresh_store). split_and!; vm_compute; reflexivity.
Qed.

(** C4, as stated, fails.  [cached_store] has a cache entry for the URL,
    with a title and an image, and an item for it that is 'pending', has no
    image and was not edited.  The call throws at line 355, before the test
    of the cache at line 358: it is rejected, the item is still 'pending'
    and still without an image.  (No fetch is made either.) *)
Theorem enrichUrlMetadata_cache_entry_not_applied :
  Store.cache cached_store !! js "https://example.com/cars/honda/city" = Some sample_entry
  /\ exists o,
       enrichUrlMetadata (js "k3x9q") (js "https://example.com/cars/honda/city") cached_store
         = ended o
       /\ find_item (js "k3x9q") (Store.items (store_of o)) = Some fresh_item
       /\ Item.metaStatus fresh_item = status_pending
       /\ Item.image fresh_item = None
       /\ Item.userEditedImage fresh_item = false
       /\ CacheEntry.image sample_entry = Some (js "https://example.com/city.png").
Proof.
  split; [vm_compute; reflexivity|].
  exists (rejected cached_store). split_and!; vm_compute; reflexivity.
Qed.

(** ** addItem *)

Section AddItemProofs.

Variable e : jsstring -> jsstring -> jsstring.
Variable new_URL : jsstring -> option URL.t.

Lemma find_same_url_and_bucket_none data content target :
  (forall i, i ∈ data -> Item.url i = content -> Item.bucketId i <> target) ->
  find (same_url_and_bucket content target) data = None.
Proof.
  intros H. induction data as [|i data IH]; [done|]. simpl.
  destruct (same_url_and_bucket content target i) eqn:Hi.
  - unfold same_url_and_bucket in Hi. apply andb_true_iff in Hi as [Hu Hb].
    apply jsstring_eqb_eq in Hu, Hb. exfalso. eapply H; [by left|done|done].
  - apply IH. intros j Hj. apply H. by right.
Qed.

(** With no item for the URL and the bucket in [data], a new item is
    made, whatever the pending set holds. *)
Lemma addItem_creates data content target type initialTitle initialImage now newId s :
  find (same_url_and_bucket content target) data = None ->
  exists s' enrichment,
    addItem e new_URL data content target type initialTitle initialImage now newId s
      = created newId s' enrichment
    /\ Store.items s' =
         newItem e new_URL content target type initialTitle initialImage now newId
           :: Store.items s
    /\ Store.pendingUrls s' =
         if bool_decide (type = type_url) || startsWith content (js "http")
         then {[content]} ∪ Store.pendingUrls s else Store.pendingUrls s.
Proof.
  intros Hfind. unfold addItem. rewrite Hfind.
  destruct (bool_decide (type = type_url) || startsWith content (js "http")).
  - destruct (decide (content ∈ Store.pendingUrls s)); eexists _, _; split_and!; reflexivity.
  - eexists _, _; split_and!; reflexivity.
Qed.

(** With the item of an earlier call in [data] and made less than 10 s
    ago, the id of that item is returned and nothing is made. *)
Lemma addItem_recent data content target type initialTitle initialImage now newId s i :
  bool_decide (type = type_url) || startsWith content (js "http") = true ->
  find (same_url_and_bucket content target) data = Some i ->
  (now - Item.createdAt i < 10000)%Z ->
  addItem e new_URL data content target type initialTitle initialImage now newId s
    = existing (Item.id i).
Proof.
  intros Hurl Hfind Hnow. unfold addItem. rewrite Hurl, Hfind.
  destruct (decide (content ∈ Store.pendingUrls s)); [done|].
  apply Z.ltb_lt in Hnow. by rewrite Hnow.
Qed.

End AddItemProofs.

(** C2.  Two calls of addItem for one URL and one bucket, 1 ms apart, both
    made by the same render (its [data] has no item for the URL): the second
    call finds the URL in the pending set, does not find the item in [data],
    goes on and makes a second item.  The state then holds two items for the
    URL in the bucket. *)
Theorem addItem_twice_same_render e new_URL :
  let url := js "https://example.com/a" in
  let bucket := js "b1" in
  exists s1 r1 s2 r2,
    addItem e new_URL [] url bucket type_url None None 1000 (js "id1") empty_store
      = created (js "id1") s1 r1
    /\ url ∈ Store.pendingUrls s1
    /\ addItem e new_URL [] url bucket type_url None None 1001 (js "id2") s1
      = created (js "id2") s2 r2
    /\ length (filter (fun i => same_url_and_bucket url bucket i = true) (Store.items s2)) = 2.
Proof.
  intros url bucket.
  destruct (addItem_creates e new_URL [] url bucket type_url None None 1000 (js "id1")
              empty_store eq_refl) as (s1 & r1 & H1 & Hi1 & Hp1).
  destruct (addItem_creates e new_URL [] url bucket type_url None None 1001 (js "id2")
              s1 eq_refl) as (s2 & r2 & H2 & Hi2 & Hp2).
  exists s1, r1, s2, r2. split_and!; [exact H1| |exact H2|].
  - rewrite Hp1. apply elem_of_union_l, elem_of_singleton. reflexivity.
  - rewrite Hi2, Hi1. reflexivity.
Qed.

(** C10.  When the render's [data] has no item with this URL in the target
    bucket, addItem makes a new item in the target bucket and puts it in
    front of the items, whatever the pending set holds and however recent
    the items with the same URL in other buckets are. *)
Theorem addItem_other_bucket e new_URL data content target type
    initialTitle initialImage now newId s :
  (forall i, i ∈ data -> Item.url i = content -> Item.bucketId i <> target) ->
  exists s' enrichment item,
    addItem e new_URL data content target type initialTitle initialImage now newId s
      = created newId s' enrichment
    /\ Store.items s' = item :: Store.items s
    /\ Item.id item = newId
    /\ Item.bucketId item = target
    /\ (type = type_url -> Item.url item = content).
Proof.
  intros H. apply find_same_url_and_bucket_none in H.
  destruct (addItem_creates e new_URL data content target type initialTitle initialImage
              now newId s H) as (s' & r & Hadd & Hitems & _).
  exists s', r, (newItem e new_URL content target type initialTitle initialImage now newId).
  split_and!; [exact Hadd|exact Hitems|reflexivity|reflexivity|].
  intros ->. reflexivity.
Qed.

Lemma addItem_other_bucket_witness :
  exists s' enrichment item,
    addItem RegExp_skip no_URL [other_bucket_item] (js "https://example.com/a") (js "b1")
            type_url None None 1001 (js "p0w2z") other_bucket_store
      = created (js "p0w2z") s' enrichment
    /\ Store.items s' = [item; other_bucket_item]
    /\ Item.bucketId item = js "b1".
Proof.
  destruct (addItem_other_bucket RegExp_skip no_URL [other_bucket_item]
              (js "https://example.com/a") (js "b1") type_url None None 1001 (js "p0w2z")
              other_bucket_store)
    as (s' & r & item & Hadd & Hitems & _ & Hb & _).
  { intros i Hi Hu. apply list_elem_of_singleton in Hi. subst i. vm_compute. discriminate. }
  exists s', r, item. split_and!; [exact Hadd|exact Hitems|exact Hb].
Defined.

(** ** The title candidates *)

(** C5, as stated, fails.  On a page with a twitter:title and a <title> but
    no og:title, the two extractors of the client take the <title> text, not
    the twitter:title; on a page with nothing but a meta description, the
    read-proxy fallback and the proxy server find no title. *)
Lemma title_priority_counterexample :
  ~ (forall p,
       fetchPageMetadata_direct_rawTitle p = spec_title_priority p
       /\ fetchPageMetadata_fallback_rawTitle p = spec_title_priority p
       /\ proxy_title p = spec_title_priority p).
Proof.
  intros H. destruct (H twitter_only_page) as [Hd _]. vm_compute in Hd. discriminate.
Qed.

Lemma title_priority_description_counterexample :
  fetchPageMetadata_fallback_rawTitle description_only_page = None
  /\ proxy_title description_only_page = None
  /\ spec_title_priority description_only_page = Some (js "About the page").
Proof. split_and!; reflexivity. Qed.

(** C5, amended.  Every extractor takes the og:title when there is one.
    Without it, the proxy server takes the twitter:title, then the <title>
    text, and nothing else; the direct extractor of the client takes the
    <title> text, then the meta description, then the og:description; the
    read-proxy fallback takes the <title> text and nothing else.  The
    twitter:title has no part in the client's choice, and the descriptions
    have none in the choice of the fallback and of the server. *)
Theorem title_priority_per_extractor p :
  (truthy_opt (Page.og_title p) = true ->
     fetchPageMetadata_direct_rawTitle p = Page.og_title p
     /\ fetchPageMetadata_fallback_rawTitle p = Page.og_title p
     /\ proxy_title p = Page.og_title p)
  /\ (truthy_opt (Page.og_title p) = false ->
      proxy_title p =
        (if truthy_opt (Page.twitter_title p) then Page.twitter_title p
         else if truthy_opt (Page.title_text p) then Page.title_text p
         else None)
      /\ fetchPageMetadata_direct_rawTitle p =
        (if truthy_opt (Page.title_text p) then Page.title_text p
         else if truthy_opt (Page.meta_description p) then Page.meta_description p
         else Page.og_description p)
      /\ fetchPageMetadata_fallback_rawTitle p = Page.title_text p)
  /\ (forall t,
        let p' := Page.mk (Page.og_title p) t (Page.title_text p)
                          (Page.meta_description p) (Page.og_description p) in
        fetchPageMetadata_direct_rawTitle p' = fetchPageMetadata_direct_rawTitle p
        /\ fetchPageMetadata_fallback_rawTitle p' = fetchPageMetadata_fallback_rawTitle p)
  /\ (forall d d',
        let p' := Page.mk (Page.og_title p) (Page.twitter_title p) (Page.title_text p) d d' in
        fetchPageMetadata_fallback_rawTitle p' = fetchPageMetadata_fallback_rawTitle p
        /\ proxy_title p' = proxy_title p).
Proof.
  destruct p as [og tw ti md od].
  unfold fetchPageMetadata_direct_rawTitle, fetchPageMetadata_fallback_rawTitle, proxy_title.
  cbn [Page.og_title Page.twitter_title Page.title_text Page.meta_description
       Page.og_description].
  split_and!.
  - intros H. destruct og as [[|c og]|]; try discriminate. done.
  - intros H. destruct og as [[|c og]|]; try discriminate;
      (split_and!;
       [ destruct tw as [[|? ?]|], ti as [[|? ?]|]; reflexivity
       | destruct ti as [[|? ?]|], md as [[|? ?]|]; reflexivity
       | reflexivity ]).
  - done.
  - done.
Qed.

Lemma title_priority_per_extractor_witness :
  proxy_title twitter_only_page = Some (js "Card title")
  /\ fetchPageMetadata_direct_rawTitle twitter_only_page = Some (js "Page title")
  /\ fetchPageMetadata_fallback_rawTitle twitter_only_page = Some (js "Page title").
Proof.
  destruct (title_priority_per_extractor twitter_only_page) as (_ & H & _).
  apply H. reflexivity.
Defined.

(** ** loadImageWithTimeout *)

Module ImageLoadProofs.
Import ImageLoad.

(** Once settled, no event changes the state but a timer that is still
    set and fires. *)
Lemma handle_settled minWidth minHeight s ev :
  settled s = true ->
  settled (handle minWidth minHeight s ev) = true
  /\ resolve_calls (handle minWidth minHeight s ev) = resolve_calls s.
Proof.
  intros H. destruct ev; simpl; rewrite ?H; simpl; [|done|done].
  destruct (timer_set s); simpl; rewrite ?H; done.
Qed.

Lemma fold_settled minWidth minHeight evs s :
  settled s = true ->
  resolve_calls (fold_left (handle minWidth minHeight) evs s) = resolve_calls s.
Proof.
  revert s. induction evs as [|ev evs IH]; intros s H; [done|]. simpl.
  destruct (handle_settled minWidth minHeight s ev H) as [H1 H2].
  by rewrite IH, H2.
Qed.

Lemma handle_consistent minWidth minHeight s ev :
  consistent s -> consistent (handle minWidth minHeight s ev).
Proof.
  unfold consistent. intros H. destruct ev; simpl.
  - destruct (timer_set s); [|done]. simpl.
    destruct (settled s) eqn:Hs; simpl; [by rewrite Hs|]. by rewrite H.
  - destruct (settled s) eqn:Hs; simpl; [by rewrite Hs|]. by rewrite H.
  - destruct (settled s) eqn:Hs; simpl; [by rewrite Hs|]. by rewrite H.
Qed.

Lemma run_first_event minWidth minHeight ev evs :
  promise_value (run minWidth minHeight (ev :: evs))
    = Some (first_event_value minWidth minHeight ev).
Proof.
  unfold promise_value, run. simpl.
  rewrite fold_settled by (by destruct ev). by destruct ev.
Qed.

Lemma run_consistent minWidth minHeight evs :
  consistent (run minWidth minHeight evs).
Proof.
  unfold run. assert (H : consistent started) by done. revert H.
  generalize started. induction evs as [|ev evs IH]; intros s H; [done|].
  simpl. by apply IH, handle_consistent.
Qed.

End ImageLoadProofs.

(** C9.  The promise of loadImageWithTimeout is always resolved, with a
    boolean (there is no rejection and no exception in the three handlers);
    it is resolved with [true] exactly when the image loads before the timer
    fires and its natural width and height are at least the minimums, so
    with [false] when the timer fires first, when the load fails and when a
    dimension is too small.  However the events arrive, the first of them
    decides the value and [resolve] is called at most once. *)
Theorem loadImageWithTimeout_resolves timeout minWidth minHeight tie b :
  (exists v, ImageLoad.loadImageWithTimeout timeout minWidth minHeight tie b = Some v
     /\ (v = true <->
         exists t w h, b = ImageLoad.loads t w h
           /\ ImageLoad.within_deadline timeout tie t = true
           /\ (minWidth <= w)%Z /\ (minHeight <= h)%Z))
  /\ (forall ev evs,
        ImageLoad.promise_value (ImageLoad.run minWidth minHeight (ev :: evs))
          = Some (ImageLoad.first_event_value minWidth minHeight ev))
  /\ (forall evs, length (ImageLoad.resolve_calls (ImageLoad.run minWidth minHeight evs)) <= 1).
Proof.
  split_and!.
  - unfold ImageLoad.loadImageWithTimeout, ImageLoad.schedule, ImageLoad.within_deadline.
    destruct b as [t w h|t|].
    + destruct ((t <? timeout)%Z || ((t =? timeout)%Z && tie)) eqn:Hin.
      * exists ((minWidth <=? w)%Z && (minHeight <=? h)%Z). split; [reflexivity|].
        rewrite andb_true_iff, !Z.leb_le. split.
        -- intros [? ?]. by exists t, w, h.
        -- intros (t' & w' & h' & [= -> -> ->] & _ & ? & ?). done.
      * exists false. split; [reflexivity|]. split; [done|].
        intros (t' & w' & h' & [= -> -> ->] & Hd & _). congruence.
    + exists false. split; [by destruct (_ || _)|]. split; [done|].
      intros (t' & w' & h' & [=] & _).
    + exists false. split; [reflexivity|]. split; [done|].
      intros (t' & w' & h' & [=] & _).
  - apply ImageLoadProofs.run_first_event.
  - intros evs. pose proof (ImageLoadProofs.run_consistent minWidth minHeight evs) as H.
    unfold ImageLoad.consistent in H.
    destruct (ImageLoad.settled _); [lia|]. rewrite H. simpl. lia.
Qed.

(** * Further properties of the code *)

(** ** updateItem and reorderItems *)

Lemma merge_merge i u : merge (merge i u) u = merge i u.
Proof.
  destruct i, u as [t im si ms ma ef ut]. unfold merge. simpl.
  destruct t, im, si, ms, ma, ef, ut; reflexivity.
Qed.

(** X1.  updateItem neither adds, drops nor reorders items: the item at
    each position is the old one, merged with the update when its id is the
    given one and untouched otherwise; no id, bucket, url or creation time
    changes; the cache, the timers and the pending set stay as they are; and
    applying the same update twice is the same as applying it once. *)
Theorem updateItem_frame id u s :
  (forall n, Store.items (updateItem id u s) !! n =
             (fun i => if jsstring_eqb (Item.id i) id then merge i u else i)
               <$> Store.items s !! n)
  /\ length (Store.items (updateItem id u s)) = length (Store.items s)
  /\ map (fun i => (Item.id i, Item.bucketId i, Item.url i, Item.createdAt i))
         (Store.items (updateItem id u s))
     = map (fun i => (Item.id i, Item.bucketId i, Item.url i, Item.createdAt i))
           (Store.items s)
  /\ Store.cache (updateItem id u s) = Store.cache s
  /\ Store.timers (updateItem id u s) = Store.timers s
  /\ Store.pendingUrls (updateItem id u s) = Store.pendingUrls s
  /\ updateItem id u (updateItem id u s) = updateItem id u s.
Proof.
  unfold updateItem, Store.with_items. simpl. split_and!; try reflexivity.
  - intros n. apply list_lookup_fmap.
  - apply length_map.
  - rewrite map_map. apply map_ext. intros i. by destruct (jsstring_eqb _ _).
  - f_equal. rewrite map_map. apply map_ext. intros i.
    destruct (jsstring_eqb (Item.id i) id) eqn:Hi; simpl; rewrite Hi; [|done].
    apply merge_merge.
Qed.

Lemma actual_start_index (i len : nat) : i <= len -> actual_start (Z.of_nat i) len = i.
Proof. intros H. unfold actual_start. destruct (Z.ltb_spec (Z.of_nat i) 0); lia. Qed.

Lemma actual_start_minus_one len : actual_start (-1) len = len - 1.
Proof. unfold actual_start. simpl. lia. Qed.

Lemma splice_insert_Permutation {A} start (x : A) l : splice_insert start x l ≡ₚ x :: l.
Proof.
  unfold splice_insert. rewrite <- Permutation_middle. by rewrite take_drop.
Qed.

Lemma actual_start_le start len : actual_start start len <= len.
Proof. unfold actual_start. destruct (Z.ltb_spec start 0); lia. Qed.

Lemma splice_insert_delete {A} start (x : A) l :
  delete (actual_start start (length l)) (splice_insert start x l) = l.
Proof.
  unfold splice_insert. pose proof (actual_start_le start (length l)) as Hk.
  set (k := actual_start start (length l)) in *.
  assert (Htake : length (take k l) = k) by (rewrite length_take; lia).
  rewrite <- Htake at 1. rewrite delete_middle. apply take_drop.
Qed.

Lemma reorderItems_nonempty d t items :
  items <> [] ->
  exists r, reorderItems d t items = Some r /\ r ≡ₚ items.
Proof.
  intros Hne. unfold reorderItems. destruct (jsstring_eqb d t); [by exists items|].
  unfold splice_delete1.
  set (i := actual_start _ (length items)).
  assert (Hi : i < length items).
  { subst i. unfold findIndex.
    destruct (list_find _ items) as [[n x]|] eqn:Hf.
    - apply list_find_Some in Hf as (Hn & _). apply lookup_lt_Some in Hn.
      rewrite actual_start_index; lia.
    - rewrite actual_start_minus_one. destruct items; [done|simpl; lia]. }
  destruct (lookup_lt_is_Some_2 items i Hi) as [x Hx]. rewrite Hx.
  eexists. split; [reflexivity|].
  rewrite splice_insert_Permutation. symmetry. by apply delete_Permutation.
Qed.

(** X2.  reorderItems moves the dragged item to the index the target had
    and keeps the other items in their order.  On an array that is not empty
    the result is always a permutation of the items; when the dragged id is
    not found, it is the last item that is moved.  With equal ids nothing
    changes; on an empty array with different ids the array is given an
    [undefined] element. *)
Theorem reorderItems_moves d t items :
  (forall di ti x y,
     list_find (fun i => Item.id i = d) items = Some (di, x) ->
     list_find (fun i => Item.id i = t) items = Some (ti, y) ->
     d <> t ->
     exists r, reorderItems d t items = Some r
       /\ r !! ti = Some x
       /\ delete ti r = delete di items)
  /\ reorderItems d d items = Some items
  /\ (items <> [] -> exists r, reorderItems d t items = Some r /\ r ≡ₚ items)
  /\ (items <> [] -> d <> t ->
      list_find (fun i => Item.id i = d) items = None ->
      exists r z k, reorderItems d t items = Some r
        /\ last items = Some z
        /\ r !! k = Some z
        /\ delete k r = delete (length items - 1) items)
  /\ (items = [] -> d <> t -> reorderItems d t items = None).
Proof.
  split_and!.
  - intros di ti x y Hd Ht Hne.
    assert (Hb : jsstring_eqb d t = false).
    { apply not_true_is_false. by rewrite jsstring_eqb_eq. }
    pose proof Hd as Hd'. pose proof Ht as Ht'.
    apply list_find_Some in Hd' as (Hdx & _). apply list_find_Some in Ht' as (Hty & _).
    pose proof (lookup_lt_Some _ _ _ Hdx) as Hdl.
    pose proof (lookup_lt_Some _ _ _ Hty) as Htl.
    unfold reorderItems, splice_delete1, findIndex. rewrite Hb, Hd, Ht.
    rewrite actual_start_index by lia. rewrite Hdx.
    eexists. split; [reflexivity|].
    assert (Hlen : length (delete di items) = length items - 1).
    { rewrite length_delete; [lia|by eexists]. }
    unfold splice_insert. rewrite actual_start_index by lia.
    assert (Htake : length (take ti (delete di items)) = ti).
    { rewrite length_take. lia. }
    split.
    + rewrite lookup_app_r by lia. by rewrite Htake, Nat.sub_diag.
    + rewrite <- Htake at 1. rewrite delete_middle. apply take_drop.
  - unfold reorderItems.
    assert (Hb : jsstring_eqb d d = true) by by apply jsstring_eqb_eq.
    by rewrite Hb.
  - apply reorderItems_nonempty.
  - intros Hl Hne Hnone.
    assert (Hb : jsstring_eqb d t = false).
    { apply not_true_is_false. by rewrite jsstring_eqb_eq. }
    assert (Hfi : findIndex (fun i => Item.id i = d) items = (-1)%Z).
    { unfold findIndex. by rewrite Hnone. }
    assert (Hlast : exists z, items !! (length items - 1) = Some z).
    { apply lookup_lt_is_Some_2. destruct items; [done|simpl; lia]. }
    destruct Hlast as [z Hz].
    unfold reorderItems, splice_delete1.
    rewrite Hb, Hfi, actual_start_minus_one, Hz.
    eexists _, z, (actual_start (findIndex (fun i => Item.id i = t) items)
                     (length (delete (length items - 1) items))).
    split; [reflexivity|]. split_and!.
    + rewrite last_lookup. rewrite <- Hz. f_equal. lia.
    + unfold splice_insert.
      pose proof (actual_start_le (findIndex (fun i => Item.id i = t) items)
                    (length (delete (length items - 1) items))) as Hk.
      rewrite lookup_app_r by (rewrite length_take; lia).
      rewrite length_take, Nat.min_l by exact Hk. by rewrite Nat.sub_diag.
    + apply splice_insert_delete.
  - intros -> Hne.
    assert (Hb : jsstring_eqb d t = false).
    { apply not_true_is_false. by rewrite jsstring_eqb_eq. }
    unfold reorderItems. by rewrite Hb.
Qed.

Example reorderItems_last_to_front :
  reorderItems (js "c") (js "a") [item_with "a" "b1"; item_with "b" "b1"; item_with "c" "b1"]
    = Some [item_with "c" "b1"; item_with "a" "b1"; item_with "b" "b1"].
Proof. vm_compute. reflexivity. Qed.

Example reorderItems_first_to_last :
  reorderItems (js "a") (js "c") [item_with "a" "b1"; item_with "b" "b1"; item_with "c" "b1"]
    = Some [item_with "b" "b1"; item_with "c" "b1"; item_with "a" "b1"].
Proof. vm_compute. reflexivity. Qed.

(** ** The update objects of enrichUrlMetadata *)

Lemma strip_prefix_app p s r b :
  strip_prefix p s = Some r -> strip_prefix p (s ++ b) = Some (r ++ b).
Proof.
  revert s. induction p as [|a p IH]; intros s; [by intros [= <-]|].
  destruct s as [|c s]; [done|]. simpl.
  destruct (Char.eqb a c); [apply IH|done].
Qed.

Lemma startsWith_app s p b : startsWith s p = true -> startsWith (s ++ b) p = true.
Proof.
  unfold startsWith. destruct (strip_prefix p s) eqn:H; [|done].
  by rewrite (strip_prefix_app _ _ _ b H).
Qed.

Lemma contains_ci_app_l pat a b : contains_ci pat a = true -> contains_ci pat (a ++ b) = true.
Proof.
  induction a as [|c a IH]; simpl.
  - destruct pat; [|done]. intros _. by destruct b.
  - intros [H|H]%orb_true_iff; apply orb_true_iff; [left|right; by apply IH].
    unfold toLowerCase in *. change (c :: a ++ b) with ((c :: a) ++ b).
    rewrite map_app. by apply (startsWith_app (map Char.toLowerCase (c :: a))).
Qed.

Lemma contains_ci_app_r pat a b : contains_ci pat b = true -> contains_ci pat (a ++ b) = true.
Proof.
  intros H. induction a as [|c a IH]; [done|]. simpl. rewrite IH. apply orb_true_r.
Qed.

(** What getFavicon returns is what enrichUrlMetadata takes for a
    favicon. *)
Lemma isFavicon_getFavicon new_URL url f :
  getFavicon new_URL url = Some f -> isFavicon (Some f) = true.
Proof.
  unfold getFavicon. destruct (truthy url); [|done].
  destruct (new_URL url) as [u|]; [|done]. intros [= <-].
  unfold isFavicon. apply andb_true_iff. split; [done|].
  apply orb_true_iff. left.
  change (contains_ci (js "s2/favicons")
            (js "https://www.google.com/"
             ++ js "s2/favicons" ++ js "?domain=" ++ URL.hostname u ++ js "&sz=64") = true).
  apply contains_ci_app_r. by apply contains_ci_app_l.
Qed.

Lemma shouldSetTitle_real cur inferred :
  3 <= length (Item.title cur) ->
  Item.title cur <> js "Untitled link" ->
  inferred <> Some (Item.title cur) ->
  shouldSetTitle (Some cur) inferred = false.
Proof.
  intros Hl Hu Hi. unfold shouldSetTitle.
  destruct (Item.title cur) as [|c t] eqn:Ht; [simpl in Hl; lia|].
  replace (jsstring_eqb (c :: t) (js "Untitled link")) with false
    by (symmetry; by apply bool_decide_eq_false).
  replace (bool_decide (Some (c :: t) = inferred)) with false
    by (symmetry; apply bool_decide_eq_false; congruence).
  replace (length (c :: t) <? 3) with false by (symmetry; apply Nat.ltb_ge; lia).
  simpl. apply andb_false_r.
Qed.

Lemma shouldSetTitle_placeholder cur inferred :
  Item.userEditedTitle cur = false ->
  length (Item.title cur) < 3 \/ Item.title cur = js "Untitled link"
    \/ inferred = Some (Item.title cur) ->
  shouldSetTitle (Some cur) inferred = true.
Proof.
  intros He H. unfold shouldSetTitle. rewrite He. simpl.
  destruct H as [H|[H|H]].
  - apply Nat.ltb_lt in H. rewrite H. destruct (Item.title cur); simpl; by rewrite ?orb_true_r.
  - rewrite H. simpl. done.
  - replace (bool_decide (Some (Item.title cur) = inferred)) with true
      by (symmetry; by apply bool_decide_eq_true).
    by rewrite !orb_true_r.
Qed.

Lemma shouldSetImage_real cur new_image :
  truthy_opt (Item.image cur) = true ->
  isFavicon (Item.image cur) = false ->
  shouldSetImage (Some cur) new_image = false.
Proof.
  intros Ht Hf. unfold shouldSetImage. rewrite Ht, Hf. simpl. apply andb_false_r.
Qed.

Lemma shouldSetImage_placeholder cur i :
  Item.userEditedImage cur = false ->
  truthy_opt (Item.image cur) = false \/ isFavicon (Item.image cur) = true ->
  i <> [] ->
  shouldSetImage (Some cur) (Some i) = true.
Proof.
  intros He H Hi. unfold shouldSetImage. rewrite He.
  assert (truthy i = true) as Ht by by destruct i.
  simpl. rewrite Ht. destruct H as [H|H]; rewrite H; simpl.
  - done.
  - destruct (truthy_opt (Item.image cur)) eqn:Hc; [done|].
    unfold isFavicon in H. destruct (Item.image cur); [|done]. simpl in Hc.
    by rewrite Hc in H.
Qed.

(** X7.  The update objects that lines 361-370 and 386-399 build, as
    functions of the item the lookup before them found (as the function is
    scoped, no call gets that far).  Both branches give the title and the
    image the same value, and both set the site and the status 'done'.  For
    an item whose userEditedTitle (userEditedImage) is true the object has
    no title (image), so merging it keeps the item's.  A title of at least
    three characters that is neither 'Untitled link' nor the inferred one
    is kept, and so is an image that is not a favicon, also when the user
    edited neither.  A title that is shorter, 'Untitled link' or the
    inferred one is replaced by a non-empty new title, and an image that
    getFavicon made by a non-empty new image, when the user edited
    neither.  When the lookup found no item, a non-empty new title is
    always set. *)
Theorem updateObj_guards (fresh : bool) cur inferred p :
  let u := if fresh then fresh_updateObj (Some cur) inferred p
           else cached_updateObj (Some cur) inferred p in
  Update.title (fresh_updateObj (Some cur) inferred p)
    = Update.title (cached_updateObj (Some cur) inferred p)
  /\ Update.image (fresh_updateObj (Some cur) inferred p)
      = Update.image (cached_updateObj (Some cur) inferred p)
  /\ Update.site u = Some (CacheEntry.site p)
  /\ Update.metaStatus u = Some status_done
  /\ (Item.userEditedTitle cur = true ->
      Update.title u = None /\ Item.title (merge cur u) = Item.title cur)
  /\ (Item.userEditedImage cur = true ->
      Update.image u = None /\ Item.image (merge cur u) = Item.image cur)
  /\ (3 <= length (Item.title cur) ->
      Item.title cur <> js "Untitled link" ->
      inferred <> Some (Item.title cur) ->
      Item.title (merge cur u) = Item.title cur)
  /\ (truthy_opt (Item.image cur) = true ->
      isFavicon (Item.image cur) = false ->
      Item.image (merge cur u) = Item.image cur)
  /\ (Item.userEditedTitle cur = false ->
      length (Item.title cur) < 3 \/ Item.title cur = js "Untitled link"
        \/ inferred = Some (Item.title cur) ->
      forall t, CacheEntry.title p = Some t -> t <> [] ->
      Item.title (merge cur u) = t)
  /\ (Item.userEditedImage cur = false ->
      (exists parse page, Item.image cur = getFavicon parse page) ->
      forall i, CacheEntry.image p = Some i -> i <> [] ->
      Item.image (merge cur u) = Some i)
  /\ (forall t, CacheEntry.title p = Some t -> t <> [] ->
      Update.title (cached_updateObj None inferred p) = Some t
      /\ Update.title (fresh_updateObj None inferred p) = Some t).
Proof.
  intros u.
  assert (Ht : Update.title u
               = if shouldSetTitle (Some cur) inferred && truthy_opt (CacheEntry.title p)
                 then CacheEntry.title p else None) by (unfold u; by destruct fresh).
  assert (Hi : Update.image u
               = if shouldSetImage (Some cur) (CacheEntry.image p)
                 then CacheEntry.image p else None) by (unfold u; by destruct fresh).
  assert (Hmt : Item.title (merge cur u) = default (Item.title cur) (Update.title u))
    by reflexivity.
  assert (Hmi : Item.image (merge cur u)
                = match Update.image u with Some i => Some i | None => Item.image cur end)
    by reflexivity.
  split_and!.
  - reflexivity.
  - reflexivity.
  - unfold u. by destruct fresh.
  - unfold u. by destruct fresh.
  - intros He. rewrite Hmt, Ht, shouldSetTitle_user_edited by done. done.
  - intros He. rewrite Hmi, Hi, shouldSetImage_user_edited by done. done.
  - intros H1 H2 H3. rewrite Hmt, Ht, shouldSetTitle_real by done. done.
  - intros H1 H2. rewrite Hmi, Hi, shouldSetImage_real by done. done.
  - intros He Hp t Hpt Hne. rewrite Hmt, Ht, shouldSetTitle_placeholder by done.
    rewrite Hpt. simpl. by destruct t.
  - intros He (parse & page & Hp) i Hpi Hne. rewrite Hmi, Hi, Hpi.
    rewrite shouldSetImage_placeholder; [done|done| |done].
    destruct (Item.image cur) as [f|] eqn:Hcur; [right|by left].
    by apply (isFavicon_getFavicon parse page).
  - intros t Hpt Hne. unfold cached_updateObj, fresh_updateObj. simpl.
    rewrite Hpt. simpl. by destruct t.
Qed.

(** ** More on addItem *)

(** X9.  When addItem returns the id of an item that exists, and when it
    makes a new one.  It returns an existing id exactly when the content is
    taken for a URL, the render's [data] has an item with this URL in the
    target bucket, and the URL is in the pending set, or the first such item
    was made less than 10 s ago, or its status is still 'pending'; the id is
    that of the first such item.  In every other case the new item is put in
    front of the items, which stay as they are, the cache and the timers are
    not touched, the URL (if it is one) is added to the pending set, and an
    enrichment is started exactly for a URL.  So an item for the same URL in
    the same bucket that is older than 10 s and no longer pending does not
    stop a second one from being made. *)
Theorem addItem_decision e new_URL data content target type t0 i0 now newId s :
  let isUrl := bool_decide (type = type_url) || startsWith content (js "http") in
  (forall id,
     addItem e new_URL data content target type t0 i0 now newId s = existing id <->
     isUrl = true /\
     exists i, find (same_url_and_bucket content target) data = Some i
       /\ Item.id i = id
       /\ (content ∈ Store.pendingUrls s
           \/ (now - Item.createdAt i < 10000)%Z
           \/ Item.metaStatus i = status_pending))
  /\ ((exists id, addItem e new_URL data content target type t0 i0 now newId s = existing id)
      \/ exists s' run,
           addItem e new_URL data content target type t0 i0 now newId s = created newId s' run
           /\ Store.items s'
                = newItem e new_URL content target type t0 i0 now newId :: Store.items s
           /\ Store.cache s' = Store.cache s
           /\ Store.timers s' = Store.timers s
           /\ Store.pendingUrls s'
                = (if isUrl then {[content]} ∪ Store.pendingUrls s else Store.pendingUrls s)
           /\ (run = None <-> isUrl = false))
  /\ (forall i,
        isUrl = true ->
        find (same_url_and_bucket content target) data = Some i ->
        content ∉ Store.pendingUrls s ->
        (10000 <= now - Item.createdAt i)%Z ->
        Item.metaStatus i <> status_pending ->
        exists s' run,
          addItem e new_URL data content target type t0 i0 now newId s = created newId s' run).
Proof.
  intros isUrl. unfold addItem. fold isUrl.
  destruct isUrl eqn:HisUrl; cbv zeta.
  2:{ split_and!.
      - intros id. split; [intros [=]|intros [[=] _]].
      - right. eexists _, _. split_and!; try reflexivity. done.
      - intros i [=]. }
  destruct (find (same_url_and_bucket content target) data) as [i|] eqn:Hfind.
  2:{ split_and!.
      - intros id. split.
        + destruct (decide _); intros [=].
        + intros [_ (i & [=] & _)].
      - right. destruct (decide _); eexists _, _; split_and!; try reflexivity;
          split; intros [=].
      - intros i _ [=]. }
  destruct (decide (content ∈ Store.pendingUrls s)) as [Hp|Hp].
  { split_and!.
    - intros id. split.
      + intros [= <-]. split; [done|]. exists i. split_and!; [done|done|by left].
      + intros [_ (j & [= <-] & <- & _)]. done.
    - left. by eexists.
    - intros j _ _ Hn. done. }
  destruct (now - Item.createdAt i <? 10000)%Z eqn:Hnow; simpl.
  { apply Z.ltb_lt in Hnow. split_and!.
    - intros id. split.
      + intros [= <-]. split; [done|]. exists i. split_and!; [done|done|right; by left].
      + intros [_ (j & [= <-] & <- & _)]. done.
    - left. by eexists.
    - intros j _ [= <-] _ Hge. lia. }
  apply Z.ltb_ge in Hnow.
  destruct (bool_decide (Item.metaStatus i = status_pending)) eqn:Hst.
  { apply bool_decide_eq_true in Hst. split_and!.
    - intros id. split.
      + intros [= <-]. split; [done|]. exists i. split_and!; [done|done|right; by right].
      + intros [_ (j & [= <-] & <- & _)]. done.
    - left. by eexists.
    - intros j _ [= <-] _ _ Hns. done. }
  apply bool_decide_eq_false in Hst. split_and!.
  - intros id. split; [intros [=]|].
    intros [_ (j & [= <-] & _ & [H|[H|H]])]; [done|lia|done].
  - right. eexists _, _. split_and!; try reflexivity. split; intros [=].
  - intros j _ _ _ _ _. by eexists _, _.
Qed.

(** ** More on normalizeTitle *)

Lemma is_separator_toUpperCase c :
  Char.is_separator (Char.toUpperCase c) = Char.is_separator c.
Proof. each_char c. Qed.

Lemma is_line_terminator_toLowerCase c :
  Char.is_line_terminator (Char.toLowerCase c) = Char.is_line_terminator c.
Proof. each_char c. Qed.

Lemma capitalize_from_Forall (P : ascii -> Prop) prev s :
  (forall c, P c -> P (Char.toUpperCase c)) ->
  Forall P s -> Forall P (capitalize_from prev s).
Proof.
  intros HP H. revert prev. induction H as [|c s Hc Hs IH]; intros prev; simpl; constructor.
  - destruct (_ && _); [by apply HP|done].
  - apply IH.
Qed.

Lemma strip_pipe_suffix_app a b :
  forallb (fun x => negb (Char.is_line_terminator x)) b = true ->
  strip_pipe_suffix (a ++ "|"%char :: b) = strip_pipe_suffix a.
Proof.
  intros Hb. induction a as [|c a IH]; simpl.
  - by rewrite Hb.
  - rewrite IH. rewrite forallb_app. simpl. rewrite Hb. by rewrite !andb_true_r.
Qed.

Lemma toLowerCase_idem s : toLowerCase (toLowerCase s) = toLowerCase s.
Proof.
  unfold toLowerCase. rewrite map_map. apply map_ext. intros c. apply toLowerCase_char_idem.
Qed.

Lemma remove_matches_nil m prev skip : remove_matches m prev skip [] = [].
Proof. reflexivity. Qed.

Lemma only_removes_nil e src : only_removes e -> e src [] = [].
Proof.
  intros He. destruct (e src []) as [|c r] eqn:H; [done|].
  exfalso. apply (He src [] c). rewrite H. by left.
Qed.

Lemma clean_title_nil e domain : only_removes e -> clean_title e [] domain = [].
Proof.
  intros He. unfold clean_title. simpl.
  assert (Hs : remove_site e domain [] = []).
  { unfold remove_site. destruct domain as [|d domain]; [done|].
    destruct (simple_pattern _); [done|by apply only_removes_nil]. }
  rewrite Hs. reflexivity.
Qed.

(** X11.  The form of a normalised title: its tokens are separated by one
    space each, with no white space before the first or after the last, and
    every white-space character in it is a plain space; none of the
    separator characters (hyphen, pipe, colon, slash, ...) is left in it;
    and, the regular expression engine only removing characters, it is the
    capitalisation of its own lower-casing: letters that do not begin a word
    are lower-case, whatever the case of the input was. *)
Theorem normalizeTitle_format e raw domain r :
  normalizeTitle e raw domain = Some r ->
  r = join_space (tokens r)
  /\ Forall (fun c => Char.is_space c = true -> c = " "%char) r
  /\ Forall (fun c => Char.is_separator c = false) r
  /\ (only_removes e -> capitalize (toLowerCase r) = r).
Proof.
  intros Hn. apply normalizeTitle_Some in Hn as (x & -> & Hx & -> & Hlen).
  pose proof (clean_tokens_wf e x domain) as Hwf.
  pose proof (clean_tokens_no_separator e x domain) as Hsep.
  set (ts := clean_tokens e x domain) in *.
  split_and!.
  - rewrite tokens_capitalize_join by done. by rewrite capitalize_join.
  - rewrite capitalize_join. apply join_space_Forall; [done|].
    apply Forall_fmap. eapply Forall_impl; [exact Hwf|]. intros w Hw. simpl.
    apply capitalize_wf_token in Hw as [_ Hw].
    eapply Forall_impl; [exact Hw|]. intros c Hc. simpl in Hc. by rewrite Hc.
  - apply capitalize_from_Forall.
    + intros c. by rewrite is_separator_toUpperCase.
    + apply join_space_Forall; [reflexivity|done].
  - intros He. unfold capitalize at 2. rewrite toLowerCase_capitalize_from; [done|].
    apply join_space_Forall; [reflexivity|]. by apply clean_tokens_lower_fixed.
Qed.

Lemma normalizeTitle_format_witness :
  js "Honda City" = join_space (tokens (js "Honda City"))
  /\ Forall (fun c => Char.is_space c = true -> c = " "%char) (js "Honda City")
  /\ Forall (fun c => Char.is_separator c = false) (js "Honda City")
  /\ (only_removes RegExp_skip -> capitalize (toLowerCase (js "Honda City")) = js "Honda City").
Proof.
  apply (normalizeTitle_format RegExp_skip
           (Some (js "Honda City | Price, Images, Specs - CarDekho")) (js "cardekho.com")).
  vm_compute. reflexivity.
Defined.

(** X12.  What normalizeTitle does not look at: the case of the raw title,
    and everything from a pipe on when no line break follows the pipe.  A
    raw title that begins with such a pipe therefore gives null. *)
Theorem normalizeTitle_ignores e a b domain :
  only_removes e ->
  Forall (fun c => Char.is_line_terminator c = false) b ->
  normalizeTitle e (Some (toLowerCase a)) domain = normalizeTitle e (Some a) domain
  /\ normalizeTitle e (Some (a ++ "|"%char :: b)) domain = normalizeTitle e (Some a) domain
  /\ normalizeTitle e (Some ("|"%char :: b)) domain = None.
Proof.
  intros He Hb.
  assert (Hb' : forallb (fun x => negb (Char.is_line_terminator x)) (toLowerCase b) = true).
  { apply forallb_forall. intros c [x [<- Hx]]%in_map_iff.
    rewrite is_line_terminator_toLowerCase.
    rewrite Forall_forall in Hb. rewrite (Hb x); [done|by apply list_elem_of_In]. }
  assert (Hclean : forall a, clean_title e (a ++ "|"%char :: b) domain = clean_title e a domain).
  { intros a0. unfold clean_title. unfold toLowerCase at 1. rewrite map_app. simpl.
    change (Char.toLowerCase "|") with "|"%char.
    change (map Char.toLowerCase b) with (toLowerCase b).
    by rewrite strip_pipe_suffix_app. }
  assert (Hpipe : normalizeTitle e (Some ("|"%char :: b)) domain = None).
  { pose proof (Hclean []) as H0. change ([] ++ "|"%char :: b) with ("|"%char :: b) in H0.
    unfold normalizeTitle. rewrite H0. by rewrite clean_title_nil. }
  split_and!.
  - destruct a as [|c a]; [done|]. unfold normalizeTitle.
    change (toLowerCase (c :: a)) with (Char.toLowerCase c :: toLowerCase a).
    change (Char.toLowerCase c :: toLowerCase a) with (toLowerCase (c :: a)).
    unfold clean_title. by rewrite toLowerCase_idem.
  - destruct a as [|c a]; [exact Hpipe|]. unfold normalizeTitle.
    change ((c :: a) ++ "|"%char :: b) with (c :: (a ++ "|"%char :: b)).
    change (c :: (a ++ "|"%char :: b)) with ((c :: a) ++ "|"%char :: b).
    by rewrite Hclean.
  - exact Hpipe.
Qed.

Lemma normalizeTitle_ignores_witness :
  normalizeTitle RegExp_skip (Some (toLowerCase (js "HONDA City"))) (js "cardekho.com")
    = normalizeTitle RegExp_skip (Some (js "HONDA City")) (js "cardekho.com")
  /\ normalizeTitle RegExp_skip (Some (js "HONDA City" ++ "|"%char :: js " CarDekho"))
                    (js "cardekho.com")
     = normalizeTitle RegExp_skip (Some (js "HONDA City")) (js "cardekho.com")
  /\ normalizeTitle RegExp_skip (Some ("|"%char :: js " CarDekho")) (js "cardekho.com") = None.
Proof.
  apply (normalizeTitle_ignores RegExp_skip (js "HONDA City") (js " CarDekho")
           (js "cardekho.com")).
  - intros src t c H. exact H.
  - vm_compute. repeat constructor.
Defined.


(** ** fetchPageMetadata *)

Section FetchProofs.

Variable e : jsstring -> jsstring -> jsstring.
Variable new_URL : jsstring -> option URL.t.
Variable encodeURIComponent : jsstring -> jsstring.
Variable net : Net.t.

Lemma validated_Some image timeout w h i :
  validated net image timeout w h = Some i ->
  image = Some i /\ i <> [] /\ Net.loadImageWithTimeout net i timeout w h = true.
Proof.
  unfold validated. destruct image as [x|]; [|done].
  destruct (truthy x) eqn:Hx; [|done]. simpl.
  destruct (Net.loadImageWithTimeout net x timeout w h) eqn:Hl; [|done].
  intros [= <-]. split_and!; [done| |done]. by destruct x.
Qed.

Lemma metadata_of_returns raw image url m :
  metadata_of e new_URL raw image url = returns m ->
  exists u, new_URL url = Some u
    /\ m = (js_or (normalizeTitle e raw (URL.hostname u)) None, image).
Proof.
  unfold metadata_of. destruct (new_URL url) as [u|]; [|done].
  intros [= <-]. by exists u.
Qed.

Lemma metadata_of_unparsed raw image url :
  new_URL url = None -> metadata_of e new_URL raw image url = throws.
Proof. unfold metadata_of. by intros ->. Qed.

Lemma metadata_of_well_made raw image timeout w h url m :
  2000 <= timeout ->
  metadata_of e new_URL raw (validated net image timeout w h) url = returns m ->
  well_made e new_URL net url m.
Proof.
  intros Ht (u & Hu & ->)%metadata_of_returns. split.
  - exists u. split; [done|]. simpl.
    destruct (normalizeTitle e raw (URL.hostname u)) as [r|] eqn:Hn.
    + right. exists raw, r. split; [done|].
      apply normalizeTitle_Some in Hn as (x & _ & _ & _ & Hlen).
      unfold js_or. simpl. destruct r; [simpl in Hlen; lia|done].
    + by left.
  - simpl. intros i (_ & Hi & Hl)%validated_Some. split; [done|]. by exists timeout, w, h.
Qed.

Lemma local_proxy_well_made proxy url m :
  local_proxy e new_URL encodeURIComponent net proxy url = returns m ->
  well_made e new_URL net url m.
Proof.
  unfold local_proxy. destruct (Net.fetchJsonWithTimeout _ _ _) as [[json|]|]; try done.
  by apply metadata_of_well_made.
Qed.

Lemma direct_fetch_well_made url m :
  direct_fetch e new_URL net url = returns m -> well_made e new_URL net url m.
Proof.
  unfold direct_fetch. destruct (Net.tryFetchHtml _ _) as [doc|]; [|done].
  apply metadata_of_well_made. lia.
Qed.

Lemma fallback_proxy_well_made proxy url m :
  fallback_proxy e new_URL encodeURIComponent net proxy url = returns m ->
  well_made e new_URL net url m.
Proof.
  unfold fallback_proxy. destruct (Net.fetch_json _ _) as [| | |j]; try done.
  apply metadata_of_well_made. lia.
Qed.

Lemma read_proxy_well_made url m :
  read_proxy e new_URL net url = returns m -> well_made e new_URL net url m.
Proof.
  unfold read_proxy. destruct (Net.tryFetchHtml _ _) as [doc|]; [|done].
  apply metadata_of_well_made. lia.
Qed.

Lemma fetchPageMetadata_well_made proxy url m :
  fetchPageMetadata e new_URL encodeURIComponent net proxy url = Some m ->
  well_made e new_URL net url m.
Proof.
  unfold fetchPageMetadata, try_block, catch_err. destruct proxy as [proxy|]; [|done].
  destruct (truthy proxy && includes proxy (js "localhost")).
  - destruct (local_proxy _ _ _ _ _ _) as [m1|] eqn:H1.
    { intros [= <-]. by eapply local_proxy_well_made. }
    destruct (direct_fetch _ _ _ _) as [m2|] eqn:H2.
    { intros [= <-]. by eapply direct_fetch_well_made. }
    destruct (truthy proxy).
    + destruct (fallback_proxy _ _ _ _ _ _) as [m3|] eqn:H3.
      { intros [= <-]. by eapply fallback_proxy_well_made. }
      destruct (read_proxy _ _ _ _) as [m4|] eqn:H4; [|done].
      intros [= <-]. by eapply read_proxy_well_made.
    + destruct (read_proxy _ _ _ _) as [m4|] eqn:H4; [|done].
      intros [= <-]. by eapply read_proxy_well_made.
  - destruct (direct_fetch _ _ _ _) as [m2|] eqn:H2.
    { intros [= <-]. by eapply direct_fetch_well_made. }
    destruct (truthy proxy).
    + destruct (fallback_proxy _ _ _ _ _ _) as [m3|] eqn:H3.
      { intros [= <-]. by eapply fallback_proxy_well_made. }
      destruct (read_proxy _ _ _ _) as [m4|] eqn:H4; [|done].
      intros [= <-]. by eapply read_proxy_well_made.
    + destruct (read_proxy _ _ _ _) as [m4|] eqn:H4; [|done].
      intros [= <-]. by eapply read_proxy_well_made.
Qed.

End FetchProofs.

(** X13.  When fetchPageMetadata resolves to null.  Where the name
    METADATA_PROXY is not bound, both the [try] block and the [catch] block
    stop at their first reference to it, and the function resolves to null
    for every URL, whatever the network would answer.  With the name bound,
    it resolves to null for every URL that [new URL] rejects, since each of
    the four ways to a result reads the host name; and it resolves to null
    when every request fails. *)
Theorem fetchPageMetadata_null e new_URL encodeURIComponent net proxy url :
  fetchPageMetadata e new_URL encodeURIComponent net None url = None
  /\ (new_URL url = None ->
      fetchPageMetadata e new_URL encodeURIComponent net proxy url = None)
  /\ ((forall u t, Net.fetchJsonWithTimeout net u t = None) ->
      (forall u, Net.fetch_json net u = fetch_throws) ->
      (forall u, Net.tryFetchHtml net u = None) ->
      fetchPageMetadata e new_URL encodeURIComponent net proxy url = None).
Proof.
  split_and!; [reflexivity| |].
  - intros Hu. destruct proxy as [proxy|]; [|reflexivity].
    unfold fetchPageMetadata, try_block, catch_err, local_proxy, direct_fetch,
      fallback_proxy, read_proxy.
    assert (Hm : forall raw image, metadata_of e new_URL raw image url = throws)
      by (intros; by apply metadata_of_unparsed).
    destruct (truthy proxy); simpl;
      repeat match goal with
             | |- context [match ?x with _ => _ end] =>
                 lazymatch x with
                 | metadata_of _ _ _ _ _ => rewrite Hm
                 | Net.fetchJsonWithTimeout _ _ _ => destruct x as [[?|]|]
                 | Net.tryFetchHtml _ _ => destruct x
                 | Net.fetch_json _ _ => destruct x
                 | includes _ _ => destruct x
                 end
             end; try reflexivity.
  - intros Hj Hf Hh. destruct proxy as [proxy|]; [|reflexivity].
    unfold fetchPageMetadata, try_block, catch_err, local_proxy, direct_fetch,
      fallback_proxy, read_proxy.
    rewrite Hj, Hf, !Hh. by destruct (truthy proxy), (includes proxy (js "localhost")).
Qed.

(** X14.  What a result of fetchPageMetadata holds.  The URL was accepted
    by [new URL]; the title is null or what normalizeTitle made of some raw
    title with the URL's host name as the domain, so it has at least three
    characters; and the image is null or a non-empty address for which
    loadImageWithTimeout, with a timeout of 2000 ms or more, resolved to
    true. *)
Theorem fetchPageMetadata_result e new_URL encodeURIComponent net proxy url title image :
  fetchPageMetadata e new_URL encodeURIComponent net proxy url = Some (title, image) ->
  (exists u, new_URL url = Some u
     /\ (title = None \/
         exists raw r, normalizeTitle e raw (URL.hostname u) = Some r
           /\ title = Some r /\ 3 <= length r))
  /\ (forall i, image = Some i ->
        i <> [] /\ exists timeout w h,
          Net.loadImageWithTimeout net i timeout w h = true /\ 2000 <= timeout).
Proof.
  intros [(u & Hu & Ht) Hi]%fetchPageMetadata_well_made. split; [|exact Hi].
  exists u. split; [done|]. destruct Ht as [Ht|(raw & r & Hn & Ht)]; [by left|right].
  exists raw, r. split_and!; [done|done|].
  by apply normalizeTitle_Some in Hn as (x & _ & _ & _ & Hlen).
Qed.

Lemma fetchPageMetadata_result_witness :
  (exists u, sample_URL (js "https://example.com/cars/honda/city") = Some u
     /\ (Some (js "Honda City Cardekho") = None \/
         exists raw r, normalizeTitle RegExp_skip raw (URL.hostname u) = Some r
           /\ Some (js "Honda City Cardekho") = Some r /\ 3 <= length r))
  /\ (forall i, Some (js "https://example.com/img/city.png") = Some i ->
        i <> [] /\ exists timeout w h,
          Net.loadImageWithTimeout (net_serving sample_doc) i timeout w h = true
          /\ 2000 <= timeout).
Proof.
  apply (fetchPageMetadata_result RegExp_skip sample_URL (fun u => u) (net_serving sample_doc)
           (Some (js "http://127.0.0.1:4000/fetch?url="))
           (js "https://example.com/cars/honda/city")).
  vm_compute. reflexivity.
Defined.


(** ** The proxy server *)

Section ServerProofs.

Variable new_URL : jsstring -> option URL.t.
Variable web : Web.t.

Lemma validateImage_Some url c abs :
  validateImage web url c = Some abs ->
  Web.resolve web c url = Some abs
  /\ exists ct, Web.head web abs = head_response true (Some ct)
       /\ contains_ci (js "image/") ct = true.
Proof.
  unfold validateImage. destruct (Web.resolve web c url) as [a|]; [|done].
  destruct (Web.head web a) as [|[] ct] eqn:Hh; try done.
  destruct (contains_ci _ _) eqn:Hct; [|done]. intros [= <-]. split; [done|].
  destruct ct as [ct|]; [by exists ct|]. simpl in Hct. discriminate.
Qed.

Lemma choose_image_Some url cs abs :
  choose_image web url cs = Some abs ->
  exists before c after,
    cs = before ++ c :: after
    /\ Forall (passed_over web url) before
    /\ c <> [] /\ looks_like_logo c = false
    /\ validateImage web url c = Some abs /\ abs <> [].
Proof.
  induction cs as [|c cs IH]; [done|]. simpl.
  assert (Hrest : choose_image web url cs = Some abs -> passed_over web url c ->
                  exists before c0 after,
                    c :: cs = before ++ c0 :: after
                    /\ Forall (passed_over web url) before
                    /\ c0 <> [] /\ looks_like_logo c0 = false
                    /\ validateImage web url c0 = Some abs /\ abs <> []).
  { intros (before & c0 & after & -> & Hb & H)%IH Hc.
    exists (c :: before), c0, after. split; [done|]. split; [by constructor|done]. }
  destruct (truthy c) eqn:Hc; simpl.
  2:{ intros H. apply Hrest; [done|]. left. by destruct c. }
  destruct (looks_like_logo c) eqn:Hl.
  { intros H. apply Hrest; [done|]. right. by left. }
  destruct (validateImage web url c) as [ok|] eqn:Hv.
  2:{ intros H. apply Hrest; [done|]. right. right. by left. }
  destruct (truthy ok) eqn:Hok.
  2:{ intros H. apply Hrest; [done|]. right. right. right. by destruct ok. }
  intros [= <-]. exists [], c, cs. split_and!; try done; by intros ->.
Qed.

Lemma choose_image_None url cs :
  choose_image web url cs = None <-> Forall (passed_over web url) cs.
Proof.
  induction cs as [|c cs IH]; [done|]. simpl. rewrite Forall_cons, <- IH.
  unfold passed_over.
  destruct c as [|x c]; simpl; [split; [intros H; split; [by left|done]|by intros [_ H]]|].
  destruct (looks_like_logo (x :: c));
    [split; [intros H; split; [right; by left|done]|by intros [_ H]]|].
  destruct (validateImage web url (x :: c)) as [[|y ok]|]; simpl.
  - split; [intros H; split; [by do 3 right|done]|by intros [_ H]].
  - split; [done|]. intros [[H|[H|[H|H]]] _]; done.
  - split; [intros H; split; [right; right; by left|done]|by intros [_ H]].
Qed.

End ServerProofs.

(** X17.  The image the proxy answers with.  It is the absolute address of
    a candidate that is not empty, that does not contain logo, icon, sprite,
    ad, badge or googlesyndication in any case, and whose HEAD request was
    answered ok with a content type that contains image/; every candidate
    before it in the order og:image, twitter:image, link image_src, the
    first 12 img sources was passed over for being empty, looking like a
    logo or failing that validation.  The image is null exactly when every
    candidate is passed over. *)
Theorem fetch_handler_image new_URL web url h title image site :
  Web.fetch web url = upstream_html h ->
  fetch_handler new_URL web (Some url) = json_response title image site ->
  (forall abs, image = Some abs ->
     exists before c after,
       ranking h = before ++ c :: after
       /\ Forall (passed_over web url) before
       /\ c <> [] /\ looks_like_logo c = false
       /\ contains_ci (js "ad") c = false
       /\ Web.resolve web c url = Some abs
       /\ exists ct, Web.head web abs = head_response true (Some ct)
            /\ contains_ci (js "image/") ct = true)
  /\ (image = None <-> Forall (passed_over web url) (ranking h)).
Proof.
  intros Hfetch. unfold fetch_handler. destruct url as [|x url]; [done|].
  rewrite Hfetch. destruct (new_URL (x :: url)) as [u|]; [|done].
  intros [= _ <- _]. split.
  - intros abs Habs.
    assert (Hch : choose_image web (x :: url) (ranking h) = Some abs).
    { unfold js_or in Habs.
      destruct (choose_image _ _ _) as [[|y a]|]; simpl in Habs; congruence. }
    apply choose_image_Some in Hch as (before & c & after & Hr & Hb & Hc & Hl & Hv & Ha).
    apply validateImage_Some in Hv as (Hres & ct & Hh & Hct).
    exists before, c, after. split_and!; try done.
    + unfold looks_like_logo in Hl. simpl in Hl.
      repeat (apply orb_false_iff in Hl as [? Hl]). done.
    + by exists ct.
  - rewrite <- choose_image_None.
    destruct (choose_image web (x :: url) (ranking h)) as [abs|] eqn:Hch; [|done].
    apply choose_image_Some in Hch as (_ & _ & _ & _ & _ & _ & _ & _ & Ha).
    destruct abs; [done|]. split; intros [=].
Qed.

Lemma fetch_handler_image_witness :
  (forall abs, Some (js "https://example.com/img/city.png") = Some abs ->
     exists before c after,
       ranking sample_html = before ++ c :: after
       /\ Forall (passed_over sample_web (js "https://example.com/cars/honda/city")) before
       /\ c <> [] /\ looks_like_logo c = false
       /\ contains_ci (js "ad") c = false
       /\ Web.resolve sample_web c (js "https://example.com/cars/honda/city") = Some abs
       /\ exists ct, Web.head sample_web abs = head_response true (Some ct)
            /\ contains_ci (js "image/") ct = true)
  /\ (Some (js "https://example.com/img/city.png") = None <->
      Forall (passed_over sample_web (js "https://example.com/cars/honda/city"))
             (ranking sample_html)).
Proof.
  apply (fetch_handler_image sample_URL sample_web (js "https://example.com/cars/honda/city")
           sample_html (Some (js "Honda City")) (Some (js "https://example.com/img/city.png"))
           (js "example.com")).
  - reflexivity.
  - vm_compute. reflexivity.
Defined.

(** X18.  The answers of the proxy.  400 exactly when the url parameter is
    missing or empty, and then nothing is fetched; 502 exactly when the page
    was fetched and its status was not ok; 500 exactly when fetching the
    page threw, or the page was read but [new URL] rejects the url; and
    otherwise the JSON object, whose title is null or a non-empty string
    and whose image is null or a non-empty string. *)
Theorem fetch_handler_status new_URL web url :
  (fetch_handler new_URL web url = error_response 400 (js "url required") <->
   url = None \/ url = Some [])
  /\ (forall u, url = Some u -> u <> [] ->
        (fetch_handler new_URL web url = error_response 502 (js "bad upstream") <->
         Web.fetch web u = upstream_not_ok)
        /\ (fetch_handler new_URL web url = error_response 500 (js "fetch failed") <->
            Web.fetch web u = upstream_throws
            \/ (exists h, Web.fetch web u = upstream_html h) /\ new_URL u = None)
        /\ ((exists title image site,
               fetch_handler new_URL web url = json_response title image site) <->
            (exists h, Web.fetch web u = upstream_html h) /\ is_Some (new_URL u)))
  /\ (forall title image site,
        fetch_handler new_URL web url = json_response title image site ->
        title <> Some [] /\ image <> Some []
        /\ exists u p, url = Some u /\ new_URL u = Some p
             /\ site = strip_www (URL.hostname p)).
Proof.
  split_and!.
  - unfold fetch_handler. destruct url as [[|x u]|].
    + split; [by right|done].
    + split; [|intros [|]; done].
      destruct (Web.fetch web (x :: u)); [done|done|]. by destruct (new_URL (x :: u)).
    + split; [by left|done].
  - intros u -> Hu. unfold fetch_handler. destruct u as [|x u]; [done|].
    destruct (Web.fetch web (x :: u)) as [| |h] eqn:Hf.
    + split_and!; [done| |].
      * split; [by left|done].
      * split; [by intros (? & ? & ? & ?)|]. by intros [[? ?] _].
    + split_and!; [done| |].
      * split; [done|]. intros [|[[? ?] _]]; done.
      * split; [by intros (? & ? & ? & ?)|]. by intros [[? ?] _].
    + destruct (new_URL (x :: u)) as [p|] eqn:Hp.
      * split_and!; [done| |].
        -- split; [done|]. intros [|[_ ?]]; done.
        -- split; [|by eexists _, _, _]. intros _. split; by eexists.
      * split_and!; [done| |].
        -- split; [|done]. intros _. right. split; [by eexists|done].
        -- split; [by intros (? & ? & ? & ?)|]. by intros [_ [? ?]].
  - intros title image site. unfold fetch_handler.
    destruct url as [[|x u]|]; [done| |done].
    destruct (Web.fetch web (x :: u)) as [| |h]; [done|done|].
    destruct (new_URL (x :: u)) as [p|] eqn:Hp; [|done].
    intros [= <- <- <-]. split_and!.
    + unfold proxy_title, js_or.
      repeat match goal with
             | |- context [truthy_opt ?o] => destruct o as [[|? ?]|]; simpl
             end; done.
    + unfold js_or. destruct (choose_image _ _ _) as [[|? ?]|]; done.
    + by exists (x :: u), p.
Qed.


(** ** The capture form *)

Lemma addItem_created e new_URL data content target type t0 i0 now newId s id s' run :
  addItem e new_URL data content target type t0 i0 now newId s = created id s' run ->
  id = newId
  /\ Store.items s' = newItem e new_URL content target type t0 i0 now newId :: Store.items s
  /\ (run = None <-> bool_decide (type = type_url) || startsWith content (js "http") = false).
Proof.
  unfold addItem.
  destruct (bool_decide (type = type_url) || startsWith content (js "http")).
  - destruct (decide (content ∈ Store.pendingUrls s));
      destruct (find (same_url_and_bucket content target) data) as [i|]; try discriminate;
      try (destruct ((now - Item.createdAt i <? 10000)%Z || _); try discriminate);
      intros [= <- <- <-]; split_and!; try done; split; intros [=].
  - intros [= <- <- <-]. done.
Qed.

(** X19.  What handleSubmit gives addItem for a typed address that
    [new URL] accepts.  The image handed over is the quick image or else the
    favicon, so it is never missing: the item made is 'done' from the start,
    never 'pending', it has an image, which is a favicon when no quick image
    was found, and its enrichment is started all the same.  And the form
    reports a link as already saved only when addItem returned the id of an
    existing item; when that item is at most 9 s old at the test, the form
    reports a new save although nothing was added. *)
Theorem handleSubmit_capture e new_URL data input bucket quickTitle quickImage now newId s u :
  new_URL input = Some u ->
  input <> [] ->
  let r := handleSubmit_addItem e new_URL data input bucket quickTitle quickImage now newId s in
  (forall s' run, r = created newId s' run ->
     exists it,
       Store.items s' = it :: Store.items s
       /\ Item.metaStatus it = status_done
       /\ truthy_opt (Item.image it) = true
       /\ (truthy_opt quickImage = false -> isFavicon (Item.image it) = true)
       /\ run <> None)
  /\ (forall now', find_item newId data = None ->
        handleSubmit_already_saved data input
          (match r with existing id => id | created id _ _ => id end) now' = true ->
        exists id, r = existing id)
  /\ (forall id ex now',
        r = existing id ->
        find_item id data = Some ex ->
        (now' - Item.createdAt ex <= 9000)%Z ->
        handleSubmit_already_saved data input id now' = false).
Proof.
  intros Hu Hin r.
  assert (Hfav : exists f, getFavicon new_URL input = Some f /\ f <> []
                   /\ isFavicon (Some f) = true).
  { destruct (getFavicon new_URL input) as [f|] eqn:Hf.
    - exists f. split_and!; [done| |by eapply isFavicon_getFavicon].
      unfold getFavicon in Hf. destruct (truthy input); [|done].
      rewrite Hu in Hf. injection Hf as <-. done.
    - unfold getFavicon in Hf. rewrite Hu in Hf. by destruct input. }
  destruct Hfav as (f & Hf & Hfne & Hfav).
  assert (Himg : exists img, js_or quickImage (getFavicon new_URL input) = Some img
                   /\ img <> []
                   /\ (truthy_opt quickImage = false -> isFavicon (Some img) = true)).
  { unfold js_or. destruct (truthy_opt quickImage) eqn:Hq.
    - destruct quickImage as [[|c q]|]; try done. exists (c :: q). by split_and!.
    - exists f. by split_and!. }
  destruct Himg as (img & Himg & Hine & Hifav).
  split_and!.
  - intros s' run Hr. unfold r, handleSubmit_addItem in Hr.
    apply addItem_created in Hr as (_ & Hitems & Hrun).
    eexists. split; [exact Hitems|]. unfold newItem. simpl.
    rewrite Himg. assert (Ht : truthy img = true) by by destruct img.
    split_and!.
    + simpl. rewrite Ht. by rewrite orb_true_r.
    + unfold js_or. simpl. by rewrite Ht.
    + intros Hq. unfold js_or. simpl. rewrite Ht. by apply Hifav.
    + intros Hn. apply Hrun in Hn. discriminate.
  - intros now' Hnew Hal. destruct r as [id|id s1 run] eqn:Hr; [by exists id|].
    unfold r, handleSubmit_addItem in Hr. apply addItem_created in Hr as (-> & _).
    unfold handleSubmit_already_saved in Hal. by rewrite Hnew in Hal.
  - intros id ex now' _ Hex Hage. unfold handleSubmit_already_saved. rewrite Hex.
    apply andb_false_iff. right. apply Z.ltb_ge. lia.
Qed.

Lemma handleSubmit_capture_witness :
  exists it s' run,
    handleSubmit_addItem RegExp_skip sample_URL [] (js "https://example.com/cars/honda/city")
      (js "b1") None None 1000 (js "id1") empty_store = created (js "id1") s' run
    /\ Store.items s' = [it]
    /\ Item.metaStatus it = status_done
    /\ isFavicon (Item.image it) = true.
Proof.
  destruct (handleSubmit_capture RegExp_skip sample_URL [] (js "https://example.com/cars/honda/city")
              (js "b1") None None 1000 (js "id1") empty_store
              (URL.mk (js "example.com") (js "/cars/honda/city")))
    as (H & _).
  { vm_compute. reflexivity. }
  { discriminate. }
  destruct (H _ _ eq_refl) as (it & Hitems & Hst & _ & Hfav & _).
  eexists it, _, _. split; [reflexivity|]. split_and!; [exact Hitems|exact Hst|].
  apply Hfav. reflexivity.
Defined.

(** ** inferTitleFromUrl *)

Lemma split_on_not_nil sep s : split_on sep s <> [].
Proof.
  induction s as [|c s IH]; simpl; [done|].
  destruct (Char.eqb c sep); [done|]. by destruct (split_on sep s).
Qed.

Lemma split_on_app sep p1 p2 :
  split_on sep (p1 ++ sep :: p2) = split_on sep p1 ++ split_on sep p2.
Proof.
  induction p1 as [|c p1 IH]; simpl.
  - assert (H : Char.eqb sep sep = true) by apply Ascii.eqb_refl. by rewrite H.
  - destruct (Char.eqb c sep); [by rewrite IH|]. rewrite IH.
    pose proof (split_on_not_nil sep p1). by destruct (split_on sep p1).
Qed.

Lemma split_on_segment sep seg :
  Forall (fun c => Char.eqb c sep = false) seg -> split_on sep seg = [seg].
Proof.
  induction 1 as [|c s Hc Hs IH]; simpl; [done|]. by rewrite Hc, IH.
Qed.

(** X21.  inferTitleFromUrl looks at the host name and at the path segments
    that are neither empty nor, in any case, one of the ignored words, and
    of these at the last two only.  So a slash added at the end of the path
    changes nothing, and neither does an empty or an ignored segment put
    between two parts of the path. *)
Theorem inferTitleFromUrl_segments e new_URL url url' u u' :
  new_URL url = Some u ->
  new_URL url' = Some u' ->
  URL.hostname u' = URL.hostname u ->
  (URL.pathname u' = URL.pathname u ++ js "/" ->
   inferTitleFromUrl e new_URL url' = inferTitleFromUrl e new_URL url)
  /\ (forall p1 p2 seg,
        URL.pathname u = p1 ++ "/"%char :: p2 ->
        URL.pathname u' = p1 ++ "/"%char :: seg ++ "/"%char :: p2 ->
        Forall (fun c => Char.eqb c "/"%char = false) seg ->
        seg = [] \/ toLowerCase seg ∈ ignore ->
        inferTitleFromUrl e new_URL url' = inferTitleFromUrl e new_URL url).
Proof.
  intros Hu Hu' Hh.
  set (kept := fun path : jsstring =>
         filter (fun p => ¬ (toLowerCase p ∈ ignore))
                (filter (fun p => truthy p = true) (split_on "/"%char path))).
  assert (Hkept : kept (URL.pathname u') = kept (URL.pathname u) ->
                  inferTitleFromUrl e new_URL url' = inferTitleFromUrl e new_URL url).
  { intros Hk. unfold inferTitleFromUrl. rewrite Hu, Hu', Hh. fold (kept (URL.pathname u')).
    fold (kept (URL.pathname u)). by rewrite Hk. }
  split.
  - intros Hp. apply Hkept. unfold kept. rewrite Hp.
    change (js "/") with ("/"%char :: []). rewrite split_on_app.
    rewrite !filter_app.
    assert (Hnil : filter (fun p => ¬ (toLowerCase p ∈ ignore))
                     (filter (fun p => truthy p = true) (split_on "/"%char [])) = [])
      by reflexivity.
    by rewrite Hnil, app_nil_r.
  - intros p1 p2 seg Hp Hp' Hseg Hnoise. apply Hkept. unfold kept. rewrite Hp, Hp'.
    rewrite !split_on_app, !filter_app. rewrite (split_on_segment "/"%char seg) by done.
    assert (Hdrop : filter (fun p => ¬ (toLowerCase p ∈ ignore))
                      (filter (fun p => truthy p = true) [seg]) = []).
    { destruct Hnoise as [->|Hn]; [reflexivity|].
      destruct seg as [|c seg]; [reflexivity|].
      rewrite (filter_cons_True _ (c :: seg)) by done. rewrite filter_nil.
      rewrite filter_cons_False; [done|]. intros H. by apply H. }
    by rewrite Hdrop.
Qed.

Lemma inferTitleFromUrl_segments_witness :
  inferTitleFromUrl RegExp_skip slash_URL (js "https://example.com/cars/honda/city/")
  = inferTitleFromUrl RegExp_skip slash_URL (js "https://example.com/cars/honda/city").
Proof.
  refine (proj1 (inferTitleFromUrl_segments RegExp_skip slash_URL
                   (js "https://example.com/cars/honda/city")
                   (js "https://example.com/cars/honda/city/")
                   (URL.mk (js "example.com") (js "/cars/honda/city"))
                   (URL.mk (js "example.com") (js "/cars/honda/city/")) _ _ _) _).
  - vm_compute. reflexivity.
  - vm_compute. reflexivity.
  - reflexivity.
  - reflexivity.
Defined.


(** ** fetchImageQuick *)

(** X22.  fetchImageQuick resolves to null or to an address for which
    loadImageWithTimeout resolved to true with a timeout of 1200 ms; and
    where the name METADATA_PROXY is not bound it resolves to null for
    every address, whatever the network would answer.  Handed on by
    handleSubmit, the image of the item that addItem makes is then such an
    address or, when [new URL] accepts the typed address, its favicon. *)
Theorem fetchImageQuick_result e new_URL encodeURIComponent net quick_text proxy url timeout :
  fetchImageQuick encodeURIComponent net quick_text None url timeout = None
  /\ (forall i,
        fetchImageQuick encodeURIComponent net quick_text proxy url timeout = Some i ->
        exists w h, Net.loadImageWithTimeout net i 1200 w h = true)
  /\ (forall data bucket quickTitle now newId s s' run it u,
        new_URL url = Some u -> url <> [] ->
        handleSubmit_addItem e new_URL data url bucket quickTitle
          (fetchImageQuick encodeURIComponent net quick_text proxy url timeout)
          now newId s = created newId s' run ->
        head (Store.items s') = Some it ->
        (exists i w h, Item.image it = Some i
           /\ Net.loadImageWithTimeout net i 1200 w h = true)
        \/ Item.image it = getFavicon new_URL url).
Proof.
  assert (Hres : forall i,
             fetchImageQuick encodeURIComponent net quick_text proxy url timeout = Some i ->
             exists w h, Net.loadImageWithTimeout net i 1200 w h = true).
  { intros i. unfold fetchImageQuick. destruct proxy as [proxy|]; [|done].
    assert (Hp : forall j, quick_proxy_image encodeURIComponent net proxy url timeout = Some j ->
                   exists w h, Net.loadImageWithTimeout net j 1200 w h = true).
    { intros j. unfold quick_proxy_image.
      destruct (Net.fetchJsonWithTimeout _ _ _) as [[json|]|]; try done.
      destruct (Json.image json) as [x|]; [|done].
      destruct (truthy x); [|done]. simpl.
      destruct (Net.loadImageWithTimeout net x 1200 200 120) eqn:Hl; [|done].
      intros [= <-]. by exists 200, 120. }
    assert (Hq : forall h j, quick_page_image net h url = Some j ->
                   exists w h, Net.loadImageWithTimeout net j 1200 w h = true).
    { intros h j. unfold quick_page_image.
      match goal with
      | |- match ?cand with _ => _ end = _ -> _ => destruct cand as [c0|]; [|done]
      end.
      destruct (Net.loadImageWithTimeout net _ 1200 0 0) eqn:Hl; [|done].
      intros [= <-]. by exists 0, 0. }
    destruct (truthy proxy).
    - destruct (quick_proxy_image _ _ _ _ _) as [j|] eqn:Hj.
      + intros [= <-]. by apply Hp.
      + destruct (quick_text url timeout) as [h|]; [apply Hq|done].
    - destruct (quick_text url timeout) as [h|]; [apply Hq|done]. }
  split_and!; [reflexivity|exact Hres|].
  intros data bucket quickTitle now newId s s' run it u Hu Hne Hadd Hhead.
  unfold handleSubmit_addItem in Hadd. apply addItem_created in Hadd as (_ & Hitems & _).
  rewrite Hitems in Hhead. injection Hhead as <-. unfold newItem. simpl.
  destruct (fetchImageQuick encodeURIComponent net quick_text proxy url timeout)
    as [i|] eqn:Hq.
  - destruct (Hres i eq_refl) as (w & h & Hl).
    destruct i as [|c i].
    + right. unfold js_or at 2. simpl. unfold getFavicon. destruct url; [done|]. simpl.
      rewrite Hu. reflexivity.
    + left. exists (c :: i), w, h. by split.
  - right. unfold js_or at 2. simpl. unfold getFavicon. destruct url; [done|]. simpl.
    rewrite Hu. reflexivity.
Qed.
